(** * sigma: first-order propagation of measurement uncertainty

    A shallow embedding of the [sigma] C++ library: the value type
    [Uncertain<ValueType>], its dependency map, the mutation gateway
    [Setter], and the arithmetic operators built on them.

    Definitions come first:
    - [ValueType]: the numeric type the templates are instantiated with,
      and [NumericType]: the type of a plain number passed to [pow];
    - the data model (independent variables on a heap of shared objects,
      dependency maps, [Uncertain]) and the mutation gateway;
    - the operators, one module per source file;
    - the predicates the statements use;
    - the instance over the real numbers (exact arithmetic) and the one over
      IEEE 754 binary64 ([UDouble]).

    Proofs follow: facts for every [ValueType], the propagation formulas
    over the reals, equality and division by zero on binary64, and
    subtraction and the power in both. *)

From Stdlib Require Import Reals Lra Lia Psatz.
From Stdlib Require Floats.
From stdpp Require Import gmap list fin_maps sorting.

(** ** The numeric type parameter

    [template<typename ValueType>]: the operations the code applies to values
    of the numeric type.  [v0] and [v1] are the literals [0.0] and [1.0];
    [veqb] is the built-in [==] ([!=] is its negation). *)
Class ValueType (T : Type) : Type := {
  v0 : T;
  v1 : T;
  vadd : T → T → T;
  vsub : T → T → T;
  vmul : T → T → T;
  vdiv : T → T → T;
  vopp : T → T;
  vsqrt : T → T;
  veqb : T → T → bool
}.

Declare Scope val_scope.
Delimit Scope val_scope with V.
Infix "+" := vadd : val_scope.
Infix "-" := vsub : val_scope.
Infix "*" := vmul : val_scope.
Infix "/" := vdiv : val_scope.
Notation "- x" := (vopp x) : val_scope.
Infix "=?" := veqb : val_scope.

(** The literal [2.0]. *)
Definition v2 {T} `{ValueType T} : T := (v1 + v1)%V.

(** ** The type of a plain number

    [template<typename NumericType>]: the type of the argument of the member
    templates [pow] and [operator*] of uncertain.hpp.  Where such a number
    meets a value the compiler converts it to [value_t] ([to_value]); the
    expression [exp - 1] of [pow] has no operand of type [value_t] and is
    evaluated in [NumericType] itself ([sub_one]), before its result is
    converted.  The instances are the types of rank [int] or above, which
    the integral promotions leave alone. *)
Class NumericType (N T : Type) : Type := {
  to_value : N → T;
  sub_one : N → N
}.

(** [NumericType = value_t] (for [UDouble], a [double] such as [2.0]): no
    conversion, and [exp - 1] is the subtraction of the value type. *)
#[global] Instance value_NumericType {T} `{ValueType T} : NumericType T T := {|
  to_value := λ v, v;
  sub_one := λ exp, (exp - v1)%V
|}.

(** [int], 32 bits wide: an integer in the range [-2^31, 2^31).  Overflow of
    [exp - 1] at the least value is undefined behaviour; the model leaves the
    range there. *)
Record c_int : Type := Int { int_val : Z }.

(** [unsigned int], 32 bits wide: an integer in the range [0, 2^32), with
    arithmetic modulo [2^32]. *)
Record c_unsigned : Type := UInt { uint_val : Z }.

Definition int_sub_one (exp : c_int) : c_int := Int (int_val exp - 1).

Definition unsigned_sub_one (exp : c_unsigned) : c_unsigned :=
  UInt ((uint_val exp - 1) mod 2 ^ 32).

(** ** Data model *)

(** [std::shared_ptr<ind_var_t>]: the address of a shared object.  Keys of
    the dependency map are compared by address, not by content. *)
Abbreviation ind_var_ptr := nat.

(** [deps_map_t = std::map<ind_var_ptr, value_t>]. *)
Abbreviation deps_map_t T := (gmap ind_var_ptr T).

Section Model.
Context {T : Type} `{ValueType T}.
Local Open Scope val_scope.

(** Modelled from the spec: class [IndependentVariable]
    (independent_variable.hpp is not among the sources; uncertain.hpp only
    forward-declares it).  The spec gives it a read-only standard deviation
    and an identity; the identity is the address of the shared object. *)
Record IndependentVariable : Type := { iv_std : T }.

(** The shared objects allocated so far; the object at address [p] is the
    [p]-th allocated one.  Objects are immutable and never freed while a
    map refers to them. *)
Local Abbreviation Heap := (list IndependentVariable).

(** [std::make_shared<ind_var_t>(...)]: a fresh address and the heap that
    holds the new object. *)
Definition make_shared (h : Heap) (v : IndependentVariable)
  : ind_var_ptr * Heap :=
  (length h, h ++ [v]).

(** [dep->std()] for a key of a dependency map.  Shared ownership keeps
    every key alive, so the fallback is never reached for a map built by
    the operators (see [deps_alive]). *)
Definition dep_std (h : Heap) (p : ind_var_ptr) : T :=
  match h !! p with
  | Some v => iv_std v
  | None => v0
  end.

Local Abbreviation deps_map_t := (deps_map_t T).

(** The range [begin(), end()) of a [std::map]: its entries in increasing
    key order.  Every range-for loop of the source walks this list.  Which
    address an allocation returns only affects the order of the walk; the
    loops below update one entry per step, so the maps they build do not
    depend on it. *)
Definition key_le (a b : ind_var_ptr * T) : Prop := a.1 ≤ b.1.

#[global] Instance key_le_dec : RelDecision key_le.
Proof. intros a b. unfold key_le. apply _. Defined.

Definition begin_end (m : deps_map_t) : list (ind_var_ptr * T) :=
  merge_sort key_le (map_to_list m).

(** [class Uncertain]: the three private members. *)
Record Uncertain : Type := mkUncertain {
  m_mean_ : T;
  m_std_ : T;
  m_deps_ : deps_map_t
}.

Definition mean (u : Uncertain) : T := m_mean_ u.
Definition std (u : Uncertain) : T := m_std_ u.
Definition deps (u : Uncertain) : deps_map_t := m_deps_ u.

(** [Uncertain() noexcept = default] followed by default-initialisation
    ([UncertainType c;]): the map is empty, the two numeric members hold
    indeterminate values, passed here as arguments. *)
Definition Uncertain_default (any_mean any_std : T) : Uncertain :=
  {| m_mean_ := any_mean; m_std_ := any_std; m_deps_ := ∅ |}.

(** *** Private helpers of [Uncertain] (declared in uncertain.hpp) *)

(** Modelled from the spec: the body of [update_dependency(var, deriv)]
    (declared and documented in uncertain.hpp, lines 162-176; its definition
    is not among the sources).  The documentation and the spec's [mergeAdd]
    agree: if [var] is already a dependency, [deriv] is added to its partial
    derivative; otherwise [var] is added with [deriv]. *)
Definition update_dependency (m : deps_map_t) (var : ind_var_ptr) (deriv : T)
  : deps_map_t :=
  match m !! var with
  | Some d => <[var := d + deriv]> m
  | None => <[var := deriv]> m
  end.

(** Modelled from the spec: the body of [update_dependencies(deps, dydx)]
    (declared and documented in uncertain.hpp, lines 178-190; its definition
    is not among the sources): every entry of [deps], with its coefficient
    times [dydx], goes through [update_dependency]. *)
Definition update_dependencies (m : deps_map_t) (deps : deps_map_t) (dydx : T)
  : deps_map_t :=
  foldl (λ acc '(dep, deriv), update_dependency acc dep (deriv * dydx))
        m (begin_end deps).

(** [for(const auto& [dep, deriv] : c.deps()) { c.m_deps_[dep] *= v; }]
    (uncertain.hpp, lines 210 and 221).  [operator[]] reads the live map and
    would value-initialise a missing entry. *)
Definition scale_each (m : deps_map_t) (v : T) : deps_map_t :=
  foldl (λ acc '(dep, _), <[dep := default v0 (acc !! dep) * v]> acc)
        m (begin_end m).

(** Modelled from the spec: the body of [calculate_std] (declared in
    uncertain.hpp, lines 192-197; its definition is not among the sources).
    The spec: the standard deviation is the square root of the sum, over
    the entries of the dependency map, of the squared coefficient times the
    squared standard deviation of the independent variable. *)
Definition sum_sq (h : Heap) (m : deps_map_t) : T :=
  foldl (λ acc '(dep, deriv),
           acc + (deriv * deriv) * (dep_std h dep * dep_std h dep))
        v0 (begin_end m).

(** Modelled from the spec: [calculate_std] stores the recomputed value in
    [m_std_] and leaves the other members alone. *)
Definition calculate_std (h : Heap) (u : Uncertain) : Uncertain :=
  {| m_mean_ := m_mean_ u;
     m_std_ := vsqrt (sum_sq h (m_deps_ u));
     m_deps_ := m_deps_ u |}.

(** Modelled from the spec: the constructor [Uncertain(mean, std)]
    (declared in uncertain.hpp, line 52; its definition is not among the
    sources).  The spec: it allocates exactly one new synthetic independent
    variable with that standard deviation and records a unit sensitivity to
    it; the standard deviation of the value is derived from the map, never
    set on its own. *)
Definition Uncertain_new (h : Heap) (mean std : T) : Uncertain * Heap :=
  let '(p, h') := make_shared h {| iv_std := std |} in
  (calculate_std h' {| m_mean_ := mean; m_std_ := v0; m_deps_ := {[ p := v1 ]} |},
   h').

(** *** The mutation gateway [Setter] *)

(** Modelled from the spec: class [Setter] (sigma/detail_/setter.hpp is not
    among the sources).  The spec: [update_mean] overwrites the mean;
    [update_derivatives] either scales the target's own map by a constant or
    merges an external map into it with a scale factor; the standard
    deviation is recomputed after the derivatives change.  The optional
    second argument of the scaling form is passed as [false] by the callers
    exactly where a merging call follows; it is read as "recompute the
    standard deviation now". *)
Definition update_mean (x : Uncertain) (mean : T) : Uncertain :=
  {| m_mean_ := mean; m_std_ := m_std_ x; m_deps_ := m_deps_ x |}.

(** Assignment to the member [m_deps_]. *)
Definition set_deps (x : Uncertain) (m : deps_map_t) : Uncertain :=
  {| m_mean_ := m_mean_ x; m_std_ := m_std_ x; m_deps_ := m |}.

(** Modelled from the spec: [Setter::update_derivatives(dxda,
    call_update_std = true)], the form that scales the target's own map. *)
Definition update_derivatives (h : Heap) (x : Uncertain) (dxda : T)
    (call_update_std : bool) : Uncertain :=
  let x' := set_deps x (scale_each (m_deps_ x) dxda) in
  if call_update_std then calculate_std h x' else x'.

(** Modelled from the spec: [Setter::update_derivatives(deps, dxda)], the
    form that merges an external map, scaled, into the target. *)
Definition update_derivatives_deps (h : Heap) (x : Uncertain)
    (deps : deps_map_t) (dxda : T) : Uncertain :=
  calculate_std h (set_deps x (update_dependencies (m_deps_ x) deps dxda)).

(** Modelled from the spec: [Setter::update_derivatives(a_deps, dxda,
    b_deps, dxdb)], the form subtraction.cpp and division.cpp call on a
    default-constructed target: the two maps are merged in turn, each with
    its scale factor. *)
Definition update_derivatives_deps2 (h : Heap) (x : Uncertain)
    (a_deps : deps_map_t) (dxda : T) (b_deps : deps_map_t) (dxdb : T)
  : Uncertain :=
  calculate_std h
    (set_deps x (update_dependencies
                   (update_dependencies (m_deps_ x) a_deps dxda) b_deps dxdb)).

(** *** References

    The compound assignments take [UncertainType& lhs] and
    [const UncertainType& rhs].  The right operand is read through its
    reference while the left one is being updated, so it matters whether
    both name the same object. *)
Inductive rhs_ref : Type :=
| same_object : rhs_ref
| other_object : Uncertain → rhs_ref.

(** The value seen through [rhs] when the left operand currently holds
    [lhs]. *)
Definition deref (lhs : Uncertain) (rhs : rhs_ref) : Uncertain :=
  match rhs with
  | same_object => lhs
  | other_object u => u
  end.
End Model.

Arguments IndependentVariable T : clear implicits.

(** The heap of shared objects, for a given numeric type. *)
Abbreviation Heap T := (list (IndependentVariable T)).
Arguments Uncertain T : clear implicits.
Arguments rhs_ref T : clear implicits.

(** ** include/sigma/uncertain.hpp: operators defined in the class header *)
Module UncertainHpp.
Section Ops.
Context {T : Type} `{ValueType T}.
Local Open Scope val_scope.

(** [std::pow] of <cmath>; a library function, taken as a parameter. *)
Variable std_pow : T → T → T.

(** [Uncertain::operator*(NumericType v) const], lines 205-213.  Both uses
    of [v] multiply it with a value, so [v] is read after its conversion to
    [value_t]. *)
Definition operator_mul_num (h : Heap T) (this : Uncertain T) (v : T)
  : Uncertain T :=
  let c := this in
  let c := {| m_mean_ := v * mean this;
              m_std_ := m_std_ c; m_deps_ := m_deps_ c |} in
  let c := set_deps c (scale_each (deps c) v) in
  calculate_std h c.

(** [Uncertain::pow(NumericType exp) const], lines 215-224.  [std::pow]
    receives [mean()] and a number: the number is converted to [value_t];
    [exp - 1] is evaluated first, in [NumericType]. *)
Definition pow {N : Type} `{NumericType N T}
    (h : Heap T) (this : Uncertain T) (exp : N) : Uncertain T :=
  let c := this in
  let c := {| m_mean_ := std_pow (mean this) (to_value exp);
              m_std_ := m_std_ c; m_deps_ := m_deps_ c |} in
  let dydx := to_value exp * std_pow (mean this) (to_value (sub_one exp)) in
  let c := set_deps c (scale_each (deps c) dydx) in
  calculate_std h c.

(** [operator*(ValueType v, const UNCERTAIN& u)], lines 237-240. *)
Definition operator_num_mul (h : Heap T) (v : T) (u : Uncertain T)
  : Uncertain T :=
  operator_mul_num h u v.

(** [operator==] of [std::pair<const ind_var_ptr, value_t>] inside
    [std::equal]: the ranges are compared position by position.  The second
    range is at least as long as the first one wherever [std::map] calls
    it. *)
Fixpoint std_equal (l1 l2 : list (ind_var_ptr * T)) : bool :=
  match l1, l2 with
  | [], _ => true
  | (k1, d1) :: t1, (k2, d2) :: t2 =>
      if Nat.eqb k1 k2 && (d1 =? d2) then std_equal t1 t2 else false
  | _ :: _, [] => false
  end.

(** [operator==] of [std::map]: equal sizes and equal ranges. *)
Definition map_equal (a b : deps_map_t T) : bool :=
  Nat.eqb (size a) (size b) && std_equal (begin_end a) (begin_end b).

(** [operator==(const UNCERTAIN& lhs, const UNCERTAIN& rhs)], lines 270-276
    (and, word for word, unnamed/part_000, lines 131-138). *)
Definition operator_eq (lhs rhs : Uncertain T) : bool :=
  if negb (mean lhs =? mean rhs) then false
  else if negb (std lhs =? std rhs) then false
  else if negb (map_equal (deps lhs) (deps rhs)) then false
  else true.

(** [operator!=], lines 288-291 (and unnamed/part_000, lines 150-154). *)
Definition operator_ne (lhs rhs : Uncertain T) : bool :=
  negb (operator_eq lhs rhs).
End Ops.
End UncertainHpp.

(** ** unnamed/part_002: the operators built on [Setter] *)
Module OperationsIpp.
Section Ops.
Context {T : Type} `{ValueType T}.
Local Open Scope val_scope.

(** [std::pow] of <cmath>; a library function, taken as a parameter. *)
Variable std_pow : T → T → T.

(** [operator-(const UncertainType& u)], lines 7-14. *)
Definition operator_neg (h : Heap T) (u : Uncertain T) : Uncertain T :=
  let c := u in
  let c := update_mean c (- mean u) in
  update_derivatives h c (- v1) true.

(** [operator+=], lines 23-29. *)
Definition operator_add_assign (h : Heap T) (lhs : Uncertain T)
    (rhs : rhs_ref T) : Uncertain T :=
  let lhs1 := update_mean lhs (mean lhs + mean (deref lhs rhs)) in
  update_derivatives_deps h lhs1 (deps (deref lhs1 rhs)) v1.

(** [operator+], lines 16-21.  [c] is a new object, so [rhs] never names
    it. *)
Definition operator_add (h : Heap T) (lhs rhs : Uncertain T) : Uncertain T :=
  let c := lhs in
  operator_add_assign h c (other_object rhs).

(** [operator-=], lines 76-82. *)
Definition operator_sub_assign (h : Heap T) (lhs : Uncertain T)
    (rhs : rhs_ref T) : Uncertain T :=
  let lhs1 := update_mean lhs (mean lhs - mean (deref lhs rhs)) in
  update_derivatives_deps h lhs1 (deps (deref lhs1 rhs)) (- v1).

(** [operator-(lhs, rhs)], lines 31-36. *)
Definition operator_sub (h : Heap T) (lhs rhs : Uncertain T) : Uncertain T :=
  let c := lhs in
  operator_sub_assign h c (other_object rhs).

(** [operator*=(UncertainType& lhs, const UncertainType& rhs)],
    lines 57-66. *)
Definition operator_mul_assign (h : Heap T) (lhs : Uncertain T)
    (rhs : rhs_ref T) : Uncertain T :=
  let dcda := mean (deref lhs rhs) in
  let dcdb := mean lhs in
  let lhs1 := update_mean lhs (mean lhs * mean (deref lhs rhs)) in
  let lhs2 := update_derivatives h lhs1 dcda false in
  update_derivatives_deps h lhs2 (deps (deref lhs2 rhs)) dcdb.

(** [operator*(lhs, rhs)], lines 38-43. *)
Definition operator_mul (h : Heap T) (lhs rhs : Uncertain T) : Uncertain T :=
  let c := lhs in
  operator_mul_assign h c (other_object rhs).

(** [operator*=(UncertainType& lhs, double rhs)], lines 68-74. *)
Definition operator_mul_assign_double (h : Heap T) (lhs : Uncertain T)
    (rhs : T) : Uncertain T :=
  let lhs1 := update_mean lhs (mean lhs * rhs) in
  update_derivatives h lhs1 rhs true.

(** [operator*(const UncertainType& lhs, double rhs)], lines 45-50. *)
Definition operator_mul_double (h : Heap T) (lhs : Uncertain T) (rhs : T)
  : Uncertain T :=
  let c := lhs in
  operator_mul_assign_double h c rhs.

(** [operator*(double lhs, const UncertainType& rhs)], lines 52-55. *)
Definition operator_double_mul (h : Heap T) (lhs : T) (rhs : Uncertain T)
  : Uncertain T :=
  operator_mul_double h rhs lhs.

(** [operator/=(UncertainType& lhs, const UncertainType& rhs)],
    lines 107-116. *)
Definition operator_div_assign (h : Heap T) (lhs : Uncertain T)
    (rhs : rhs_ref T) : Uncertain T :=
  let dcda := v1 / mean (deref lhs rhs) in
  let dcdb := (- mean lhs) / std_pow (mean (deref lhs rhs)) v2 in
  let lhs1 := update_mean lhs (mean lhs / mean (deref lhs rhs)) in
  let lhs2 := update_derivatives h lhs1 dcda false in
  update_derivatives_deps h lhs2 (deps (deref lhs2 rhs)) dcdb.

(** [operator/(lhs, rhs)], lines 84-89. *)
Definition operator_div (h : Heap T) (lhs rhs : Uncertain T) : Uncertain T :=
  let c := lhs in
  operator_div_assign h c (other_object rhs).

(** [operator/=(UncertainType& lhs, double rhs)], lines 118-124. *)
Definition operator_div_assign_double (h : Heap T) (lhs : Uncertain T)
    (rhs : T) : Uncertain T :=
  let lhs1 := update_mean lhs (mean lhs / rhs) in
  update_derivatives h lhs1 (v1 / rhs) true.

(** [operator/(const UncertainType& lhs, double rhs)], lines 91-96. *)
Definition operator_div_double (h : Heap T) (lhs : Uncertain T) (rhs : T)
  : Uncertain T :=
  let c := lhs in
  operator_div_assign_double h c rhs.

(** [operator/(double lhs, const UncertainType& rhs)], lines 98-105. *)
Definition operator_double_div (h : Heap T) (lhs : T) (rhs : Uncertain T)
  : Uncertain T :=
  let c := rhs in
  let c := update_mean c (lhs / mean rhs) in
  update_derivatives h c ((- lhs) / std_pow (mean rhs) v2) true.
End Ops.
End OperationsIpp.

(** ** src/sigma/operations/subtraction.cpp *)
Module SubtractionCpp.
Section Ops.
Context {T : Type} `{ValueType T}.
Local Open Scope val_scope.

(** [operator-(lhs, rhs)], lines 7-14.  [c] is default-initialised;
    [any_mean] and [any_std] stand for its indeterminate members. *)
Definition operator_sub (any_mean any_std : T) (h : Heap T)
    (lhs rhs : Uncertain T) : Uncertain T :=
  let c := Uncertain_default any_mean any_std in
  let c := update_mean c (mean lhs - mean rhs) in
  update_derivatives_deps2 h c (deps lhs) v1 (deps rhs) (- v1).

(** [operator-=], lines 16-22. *)
Definition operator_sub_assign (h : Heap T) (lhs : Uncertain T)
    (rhs : rhs_ref T) : Uncertain T :=
  let lhs1 := update_mean lhs (mean lhs - mean (deref lhs rhs)) in
  update_derivatives_deps h lhs1 (deps (deref lhs1 rhs)) (- v1).
End Ops.
End SubtractionCpp.

(** ** src/sigma/operations/division.cpp *)
Module DivisionCpp.
Section Ops.
Context {T : Type} `{ValueType T}.
Local Open Scope val_scope.

(** [std::pow] of <cmath>; a library function, taken as a parameter. *)
Variable std_pow : T → T → T.

(** [operator/(lhs, rhs)], lines 7-16. *)
Definition operator_div (any_mean any_std : T) (h : Heap T)
    (lhs rhs : Uncertain T) : Uncertain T :=
  let dxda := v1 / mean rhs in
  let dxdb := (- mean lhs) / std_pow (mean rhs) v2 in
  let c := Uncertain_default any_mean any_std in
  let c := update_mean c (mean lhs / mean rhs) in
  update_derivatives_deps2 h c (deps lhs) dxda (deps rhs) dxdb.

(** [operator/(const UncertainType& lhs, double rhs)], lines 18-25. *)
Definition operator_div_double (h : Heap T) (lhs : Uncertain T) (rhs : T)
  : Uncertain T :=
  let c := lhs in
  let c := update_mean c (mean lhs / rhs) in
  update_derivatives h c (v1 / rhs) true.

(** [operator/(double lhs, const UncertainType& rhs)], lines 27-34. *)
Definition operator_double_div (h : Heap T) (lhs : T) (rhs : Uncertain T)
  : Uncertain T :=
  let c := rhs in
  let c := update_mean c (lhs / mean rhs) in
  update_derivatives h c ((- lhs) / std_pow (mean rhs) v2) true.
End Ops.
End DivisionCpp.

(** ** Predicates and derived map operations *)
Section Predicates.
Context {T : Type} `{ValueType T}.
Local Open Scope val_scope.
Variable std_pow : T → T → T.
Implicit Types (m : deps_map_t T) (h : Heap T) (u x y : Uncertain T).

(** What one pass of the loop does to the entry of [k], by the entry of the
    merged map at [k]. *)
Definition merge_entry (dydx : T) (a d : option T) : option T :=
  match d with
  | Some d => Some (match a with Some a => a + d * dydx | None => d * dydx end)
  | None => a
  end.

(** The merge of two scaled maps: a key of both gets the sum. *)
Definition merge_scaled (a : deps_map_t T) (s : T) (b : deps_map_t T) (t : T)
  : deps_map_t T :=
  union_with (λ c d, Some (c + d)) ((λ c, c * s) <$> a) ((λ d, d * t) <$> b).

(** The stored standard deviation is the one [calculate_std] derives from
    the dependency map. *)
Definition std_derived h u : Prop :=
  m_std_ u = vsqrt (sum_sq h (m_deps_ u)).

(** Every key of the map points to an allocated object. *)
Definition map_alive h m : Prop := ∀ k, is_Some (m !! k) → k < length h.

Definition deps_alive h u : Prop := map_alive h (m_deps_ u).

(** The values a program can build: by the constructor, and from built
    values by the operators of the four source files.  A compound assignment
    takes its right operand by reference; the reference names either the left
    operand itself or another built value.  Copies are the values
    themselves. *)
Inductive built : Heap T → Uncertain T → Prop :=
| built_new h mu sigma :
    built (Uncertain_new h mu sigma).2 (Uncertain_new h mu sigma).1
| built_alloc h u v :
    built h u → built (make_shared h v).2 u
| built_mul_num h u v :
    built h u → built h (UncertainHpp.operator_mul_num h u v)
| built_num_mul h u v :
    built h u → built h (UncertainHpp.operator_num_mul h v u)
| built_pow (N : Type) (NT : NumericType N T) h u (exp : N) :
    built h u → built h (UncertainHpp.pow std_pow h u exp)
| built_neg h u :
    built h u → built h (OperationsIpp.operator_neg h u)
| built_add_assign h x r :
    built h x → (∀ y, r = other_object y → built h y) →
    built h (OperationsIpp.operator_add_assign h x r)
| built_add h x y :
    built h x → built h y → built h (OperationsIpp.operator_add h x y)
| built_sub_assign h x r :
    built h x → (∀ y, r = other_object y → built h y) →
    built h (OperationsIpp.operator_sub_assign h x r)
| built_sub h x y :
    built h x → built h y → built h (OperationsIpp.operator_sub h x y)
| built_mul_assign h x r :
    built h x → (∀ y, r = other_object y → built h y) →
    built h (OperationsIpp.operator_mul_assign h x r)
| built_mul h x y :
    built h x → built h y → built h (OperationsIpp.operator_mul h x y)
| built_mul_assign_double h x v :
    built h x → built h (OperationsIpp.operator_mul_assign_double h x v)
| built_mul_double h x v :
    built h x → built h (OperationsIpp.operator_mul_double h x v)
| built_double_mul h x v :
    built h x → built h (OperationsIpp.operator_double_mul h v x)
| built_div_assign h x r :
    built h x → (∀ y, r = other_object y → built h y) →
    built h (OperationsIpp.operator_div_assign std_pow h x r)
| built_div h x y :
    built h x → built h y → built h (OperationsIpp.operator_div std_pow h x y)
| built_div_assign_double h x v :
    built h x → built h (OperationsIpp.operator_div_assign_double h x v)
| built_div_double h x v :
    built h x → built h (OperationsIpp.operator_div_double h x v)
| built_double_div h x v :
    built h x → built h (OperationsIpp.operator_double_div std_pow h v x)
| built_sub_cpp h x y any_mean any_std :
    built h x → built h y →
    built h (SubtractionCpp.operator_sub any_mean any_std h x y)
| built_sub_assign_cpp h x r :
    built h x → (∀ y, r = other_object y → built h y) →
    built h (SubtractionCpp.operator_sub_assign h x r)
| built_div_cpp h x y any_mean any_std :
    built h x → built h y →
    built h (DivisionCpp.operator_div std_pow any_mean any_std h x y)
| built_div_double_cpp h x v :
    built h x → built h (DivisionCpp.operator_div_double h x v)
| built_double_div_cpp h x v :
    built h x → built h (DivisionCpp.operator_double_div std_pow h v x).

(** Two maps hold the same keys, with coefficients that compare equal. *)
Definition deps_agree (a b : deps_map_t T) : Prop :=
  ∀ k, match a !! k, b !! k with
       | Some c, Some d => (c =? d) = true
       | None, None => True
       | _, _ => False
       end.

(** What [std::equal] checks at each position. *)
Definition entry_eq (e1 e2 : ind_var_ptr * T) : Prop :=
  e1.1 = e2.1 ∧ (e1.2 =? e2.2) = true.
End Predicates.

(** ** The instance over the real numbers

    Exact arithmetic: the propagation formulas of the operators are checked
    here.  Rounding, infinities and NaN are outside this instance (see the
    binary64 instance below); in particular [x / 0] is just some real
    number. *)
Section RealInstance.
Local Open Scope R_scope.

#[global] Instance R_ValueType : ValueType R := {|
  v0 := 0;
  v1 := 1;
  vadd := Rplus;
  vsub := Rminus;
  vmul := Rmult;
  vdiv := Rdiv;
  vopp := Ropp;
  vsqrt := sqrt;
  veqb := λ a b, if Req_dec_T a b then true else false
|}.

(** [int] and [unsigned int] convert to a real number exactly. *)
#[global] Instance int_NumericType_R : NumericType c_int R := {|
  to_value := λ exp, IZR (int_val exp);
  sub_one := int_sub_one
|}.

#[global] Instance unsigned_NumericType_R : NumericType c_unsigned R := {|
  to_value := λ exp, IZR (uint_val exp);
  sub_one := unsigned_sub_one
|}.

(** The power function of exact arithmetic, the function [std::pow]
    approximates: an integral exponent is a repeated product (or its
    inverse), any exponent of a positive base goes through [exp] and [ln],
    and a positive non-integral power of zero is zero.  It is not the
    library's function: [std::pow] rounds its result (and need not round it
    correctly), and returns an infinity or a NaN where no real number fits (a
    negative power of zero, a non-integral power of a negative base), where
    this function returns some real number.  The statements that use it are
    statements of exact arithmetic, and read it at a non-zero base or at a
    positive exponent. *)
Definition Rstd_pow (x y : R) : R :=
  if Req_dec_T y (IZR (Int_part y)) then powerRZ x (Int_part y)
  else if Rlt_dec 0 x then Rpower x y
  else 0.

(** The spec's formula, written as the spec words it: the sum, over all
    entries of the dependency map, of the squared coefficient times the
    squared standard deviation of that independent variable. *)
Definition Rsum (l : list R) : R := foldr Rplus 0 l.

Definition spec_term (h : Heap R) (e : ind_var_ptr * R) : R :=
  e.2 ^ 2 * dep_std h e.1 ^ 2.

Definition spec_sum (h : Heap R) (m : deps_map_t R) : R :=
  Rsum (spec_term h <$> map_to_list m).

Definition spec_std (h : Heap R) (m : deps_map_t R) : R :=
  sqrt (spec_sum h m).

End RealInstance.

(** Unfold the numeric operations to those of [R]. *)
Ltac vsimpl :=
  unfold v2 in *;
  cbn [v0 v1 vadd vsub vmul vdiv vopp vsqrt veqb R_ValueType] in *.

(** ** The instance over IEEE 754 binary64

    [UDouble = Uncertain<double>]: the operations are those of the
    hardware, with infinities, NaN and signed zeros. *)
Section Binary64Instance.
Import PrimFloat.

#[global] Instance float_ValueType : ValueType float := {|
  v0 := zero;
  v1 := one;
  vadd := add;
  vsub := sub;
  vmul := mul;
  vdiv := div;
  vopp := opp;
  vsqrt := sqrt;
  veqb := eqb
|}.

(** The conversion of an integer to [double]: exact for a magnitude below
    [2^53], so for every [int] and every [unsigned int]. *)
Definition float_of_Z (z : Z) : float :=
  match z with
  | Z0 => zero
  | Zpos _ => of_uint63 (Uint63.of_Z z)
  | Zneg p => opp (of_uint63 (Uint63.of_Z (Zpos p)))
  end.

#[global] Instance int_NumericType_float : NumericType c_int float := {|
  to_value := λ exp, float_of_Z (int_val exp);
  sub_one := int_sub_one
|}.

#[global] Instance unsigned_NumericType_float : NumericType c_unsigned float := {|
  to_value := λ exp, float_of_Z (uint_val exp);
  sub_one := unsigned_sub_one
|}.

(** [std::pow] at the exponents 2.0 and 1.0 for a base whose square is a
    binary64 number (0, 2, 4, ...), where the library returns the exact
    power: [b * b] and [b]. *)
Definition pow_of_exact_square (b e : float) : float :=
  if (e =? 2)%float then (b * b)%float else b.

(** [std::pow] at the exponents 4294967295.0 and -1.0 for a base that is a
    power of two, where every product is exact until it overflows: the
    power by repeated squaring, and the inverse. *)
Definition pow_of_power_of_two (b e : float) : float :=
  if (e =? 4294967295)%float then Pos.iter_op mul 4294967295 b
  else (1 / b)%float.

(** [std::pow] at the exponents 2.0 and 1.0 for the base 2.759
    ([0x1.6126e978d4fdfp+1]).  The library's [pow] is accurate to one unit in
    the last place, not correctly rounded: [pow(2.759, 2.0)] is
    7.612080999999999 ([0x1.e72c55c96030bp+2]), the number just below the
    rounded product 7.6120809999999999 ([0x1.e72c55c96030cp+2]);
    [pow(2.759, 1.0)] is the base. *)
Definition pow_of_2_759 (b e : float) : float :=
  if (e =? 2)%float then 0x1.e72c55c96030bp+2%float else b.

(** An infinity or a NaN. *)
Definition is_inf_or_nan (x : float) : bool := is_nan x || is_infinity x.

(** The same, on the specification of a binary64 value. *)
Definition SF_inf_or_nan (s : SpecFloat.spec_float) : bool :=
  match s with
  | SpecFloat.S754_nan | SpecFloat.S754_infinity _ => true
  | _ => false
  end.

(** No NaN among the mean, the standard deviation and the coefficients. *)
Definition nan_free (u : Uncertain float) : Prop :=
  is_nan (mean u) = false ∧ is_nan (std u) = false ∧
  ∀ k d, deps u !! k = Some d → is_nan d = false.
End Binary64Instance.

(** * Proofs *)

(** ** Facts that hold for every numeric type *)
Section Facts.
Context {T : Type} `{ValueType T}.
Local Open Scope val_scope.
Implicit Types (m : deps_map_t T) (h : Heap T) (u x y : Uncertain T).

(** *** The traversal of a map *)

Lemma begin_end_perm m : begin_end m ≡ₚ map_to_list m.
Proof. apply merge_sort_Permutation. Qed.

Lemma NoDup_fst_begin_end m : NoDup (begin_end m).*1.
Proof.
  rewrite (fmap_Permutation fst _ _ (begin_end_perm m)).
  apply NoDup_fst_map_to_list.
Qed.

Lemma elem_of_begin_end m k d : (k, d) ∈ begin_end m ↔ m !! k = Some d.
Proof. rewrite (begin_end_perm m). apply elem_of_map_to_list. Qed.

Lemma list_to_map_begin_end m : list_to_map (begin_end m) = m.
Proof.
  rewrite <- (list_to_map_to_list m) at 2.
  apply list_to_map_proper; [apply NoDup_fst_begin_end | apply begin_end_perm].
Qed.

Lemma length_begin_end m : length (begin_end m) = size m.
Proof. rewrite (begin_end_perm m). apply length_map_to_list. Qed.

(** *** The merging loop *)

Lemma update_dependency_lookup m var deriv k :
  update_dependency m var deriv !! k =
  if decide (var = k)
  then Some (match m !! var with Some d => d + deriv | None => deriv end)
  else m !! k.
Proof.
  unfold update_dependency.
  destruct (m !! var) eqn:E; rewrite lookup_insert; by case_decide.
Qed.

Lemma foldl_update_dependency_lookup (l : list (ind_var_ptr * T)) dydx m k :
  NoDup l.*1 →
  foldl (λ acc '(dep, deriv), update_dependency acc dep (deriv * dydx)) m l !! k
  = merge_entry dydx (m !! k) ((list_to_map l : deps_map_t T) !! k).
Proof.
  revert m. induction l as [|[k0 d0] l IH]; intros m Hnd.
  - cbn [foldl list_to_map foldr]. by rewrite lookup_empty.
  - rewrite fmap_cons in Hnd. cbn [fst] in Hnd.
    apply NoDup_cons in Hnd as [Hk0 Hnd]. cbn [foldl].
    rewrite IH by done. rewrite update_dependency_lookup.
    cbn [list_to_map foldr uncurry]. rewrite lookup_insert. cbn [fst snd].
    destruct (decide (k0 = k)) as [->|Hk]; [|done].
    by rewrite (not_elem_of_list_to_map_1 l k).
Qed.

Lemma update_dependencies_lookup m deps dydx k :
  update_dependencies m deps dydx !! k
  = merge_entry dydx (m !! k) (deps !! k).
Proof.
  unfold update_dependencies.
  rewrite foldl_update_dependency_lookup by apply NoDup_fst_begin_end.
  by rewrite list_to_map_begin_end.
Qed.

(** The loop computes the union of the two maps in which a shared key gets
    the sum of its two coefficients. *)
Lemma update_dependencies_union_with m deps dydx :
  update_dependencies m deps dydx
  = union_with (λ a d, Some (a + d)) m ((λ d, d * dydx) <$> deps).
Proof.
  apply map_eq; intros k.
  rewrite update_dependencies_lookup, lookup_union_with, lookup_fmap.
  by destruct (m !! k), (deps !! k).
Qed.

Lemma update_dependencies_empty deps dydx :
  update_dependencies ∅ deps dydx = (λ d, d * dydx) <$> deps.
Proof.
  apply map_eq; intros k.
  rewrite update_dependencies_lookup, lookup_empty, lookup_fmap.
  by destruct (deps !! k).
Qed.

(** *** The scaling loop *)

Lemma foldl_scale_lookup (l : list (ind_var_ptr * T)) v m k :
  NoDup l.*1 →
  foldl (λ acc '(dep, _), <[dep := default v0 (acc !! dep) * v]> acc) m l !! k
  = if decide (k ∈ l.*1) then Some (default v0 (m !! k) * v) else m !! k.
Proof.
  revert m. induction l as [|[k0 d0] l IH]; intros m Hnd.
  - cbn. case_decide as Hin; [by apply elem_of_nil in Hin|done].
  - rewrite fmap_cons in Hnd |- *. cbn [fst] in Hnd |- *.
    apply NoDup_cons in Hnd as [Hk0 Hnd]. cbn [foldl].
    rewrite IH by done.
    destruct (decide (k = k0)) as [->|Hne].
    + rewrite decide_False by done. rewrite lookup_insert_eq.
      rewrite decide_True by left. done.
    + rewrite !lookup_insert_ne by done.
      apply decide_ext. rewrite elem_of_cons.
      split; [by right | by intros [?|?]].
Qed.

Lemma scale_each_fmap m v : scale_each m v = (λ d, d * v) <$> m.
Proof.
  apply map_eq; intros k. unfold scale_each.
  rewrite foldl_scale_lookup by apply NoDup_fst_begin_end.
  rewrite lookup_fmap. case_decide as Hin.
  - apply list_elem_of_fmap in Hin as [[k' d] [-> Hin]].
    apply elem_of_begin_end in Hin. cbn. by rewrite Hin.
  - destruct (m !! k) as [d|] eqn:E; [|done].
    exfalso. apply Hin. apply list_elem_of_fmap. exists (k, d).
    split; [done|]. by apply elem_of_begin_end.
Qed.
End Facts.

(** ** What the operators return, for every numeric type *)
Section OperatorFacts.
Context {T : Type} `{ValueType T}.
Local Open Scope val_scope.
Variable std_pow : T → T → T.
Implicit Types (m : deps_map_t T) (h : Heap T) (u x y : Uncertain T).

Lemma uncertain_eq u1 u2 :
  m_mean_ u1 = m_mean_ u2 → m_std_ u1 = m_std_ u2 → m_deps_ u1 = m_deps_ u2 →
  u1 = u2.
Proof. destruct u1, u2; cbn; by intros -> -> ->. Qed.

Lemma scale_then_merge a s b t :
  update_dependencies (scale_each a s) b t = merge_scaled a s b t.
Proof. by rewrite update_dependencies_union_with, scale_each_fmap. Qed.

Lemma merge_then_merge a s b t :
  update_dependencies (update_dependencies ∅ a s) b t = merge_scaled a s b t.
Proof.
  by rewrite update_dependencies_empty, update_dependencies_union_with.
Qed.

Lemma merge_scaled_lookup a s b t k :
  merge_scaled a s b t !! k =
  match a !! k, b !! k with
  | Some c, Some d => Some (c * s + d * t)
  | Some c, None => Some (c * s)
  | None, Some d => Some (d * t)
  | None, None => None
  end.
Proof.
  unfold merge_scaled. rewrite lookup_union_with, !lookup_fmap.
  by destruct (a !! k), (b !! k).
Qed.

(** The product, part_002. *)
Lemma operator_mul_unfold h x y :
  OperationsIpp.operator_mul h x y =
  {| m_mean_ := mean x * mean y;
     m_std_ :=
       vsqrt (sum_sq h (merge_scaled (deps x) (mean y) (deps y) (mean x)));
     m_deps_ := merge_scaled (deps x) (mean y) (deps y) (mean x) |}.
Proof.
  unfold OperationsIpp.operator_mul, OperationsIpp.operator_mul_assign,
    update_derivatives_deps, update_derivatives, calculate_std, set_deps,
    update_mean, deref, mean, deps; cbn.
  by rewrite scale_then_merge.
Qed.

(** The quotient, part_002. *)
Lemma operator_div_unfold h x y :
  OperationsIpp.operator_div std_pow h x y =
  let dcda := v1 / mean y in
  let dcdb := (- mean x) / std_pow (mean y) v2 in
  {| m_mean_ := mean x / mean y;
     m_std_ := vsqrt (sum_sq h (merge_scaled (deps x) dcda (deps y) dcdb));
     m_deps_ := merge_scaled (deps x) dcda (deps y) dcdb |}.
Proof.
  unfold OperationsIpp.operator_div, OperationsIpp.operator_div_assign,
    update_derivatives_deps, update_derivatives, calculate_std, set_deps,
    update_mean, deref, mean, deps; cbn.
  by rewrite scale_then_merge.
Qed.

(** The quotient of division.cpp returns the same value, whatever the
    default-initialised members held. *)
Lemma operator_div_cpp any_mean any_std h x y :
  DivisionCpp.operator_div std_pow any_mean any_std h x y
  = OperationsIpp.operator_div std_pow h x y.
Proof.
  rewrite operator_div_unfold.
  unfold DivisionCpp.operator_div, update_derivatives_deps2, calculate_std,
    set_deps, update_mean, Uncertain_default, mean, deps; cbn.
  by rewrite merge_then_merge.
Qed.

(** The difference, part_002. *)
Lemma operator_sub_unfold h x y :
  OperationsIpp.operator_sub h x y =
  let d := union_with (λ c d, Some (c + d)) (deps x) ((λ d, d * - v1) <$> deps y) in
  {| m_mean_ := mean x - mean y;
     m_std_ := vsqrt (sum_sq h d);
     m_deps_ := d |}.
Proof.
  unfold OperationsIpp.operator_sub, OperationsIpp.operator_sub_assign,
    update_derivatives_deps, calculate_std, set_deps,
    update_mean, deref, mean, deps; cbn.
  by rewrite update_dependencies_union_with.
Qed.

(** The difference of subtraction.cpp. *)
Lemma operator_sub_cpp_unfold any_mean any_std h x y :
  SubtractionCpp.operator_sub any_mean any_std h x y =
  let d := merge_scaled (deps x) v1 (deps y) (- v1) in
  {| m_mean_ := mean x - mean y;
     m_std_ := vsqrt (sum_sq h d);
     m_deps_ := d |}.
Proof.
  unfold SubtractionCpp.operator_sub, update_derivatives_deps2, calculate_std,
    set_deps, update_mean, Uncertain_default, mean, deps; cbn.
  by rewrite merge_then_merge.
Qed.

(** Scaling by a plain number, uncertain.hpp. *)
Lemma operator_mul_num_unfold h u v :
  UncertainHpp.operator_mul_num h u v =
  {| m_mean_ := v * mean u;
     m_std_ := vsqrt (sum_sq h ((λ c, c * v) <$> deps u));
     m_deps_ := (λ c, c * v) <$> deps u |}.
Proof.
  unfold UncertainHpp.operator_mul_num, calculate_std, set_deps, mean, deps;
    cbn.
  by rewrite scale_each_fmap.
Qed.

(** Scaling by a plain number, part_002. *)
Lemma operator_mul_double_unfold h u v :
  OperationsIpp.operator_mul_double h u v =
  {| m_mean_ := mean u * v;
     m_std_ := vsqrt (sum_sq h ((λ c, c * v) <$> deps u));
     m_deps_ := (λ c, c * v) <$> deps u |}.
Proof.
  unfold OperationsIpp.operator_mul_double,
    OperationsIpp.operator_mul_assign_double, update_derivatives,
    calculate_std, set_deps, update_mean, mean, deps; cbn.
  by rewrite scale_each_fmap.
Qed.

(** The power, uncertain.hpp, for every type of the exponent. *)
Lemma pow_numeric_unfold {N : Type} `{NumericType N T} h u (exp : N) :
  UncertainHpp.pow std_pow h u exp =
  let dydx := to_value exp * std_pow (mean u) (to_value (sub_one exp)) in
  {| m_mean_ := std_pow (mean u) (to_value exp);
     m_std_ := vsqrt (sum_sq h ((λ c, c * dydx) <$> deps u));
     m_deps_ := (λ c, c * dydx) <$> deps u |}.
Proof.
  unfold UncertainHpp.pow, calculate_std, set_deps, mean, deps; cbn.
  by rewrite scale_each_fmap.
Qed.

(** The power with an exponent of the value type itself. *)
Lemma pow_unfold h u (exp : T) :
  UncertainHpp.pow std_pow h u exp =
  let dydx := exp * std_pow (mean u) (exp - v1) in
  {| m_mean_ := std_pow (mean u) exp;
     m_std_ := vsqrt (sum_sq h ((λ c, c * dydx) <$> deps u));
     m_deps_ := (λ c, c * dydx) <$> deps u |}.
Proof. exact (pow_numeric_unfold h u exp). Qed.

(** A plain number divided by an uncertain one, division.cpp and
    part_002. *)
Lemma operator_double_div_unfold h v u :
  DivisionCpp.operator_double_div std_pow h v u =
  let s := (- v) / std_pow (mean u) v2 in
  {| m_mean_ := v / mean u;
     m_std_ := vsqrt (sum_sq h ((λ c, c * s) <$> deps u));
     m_deps_ := (λ c, c * s) <$> deps u |}.
Proof.
  unfold DivisionCpp.operator_double_div, update_derivatives, calculate_std,
    set_deps, update_mean, mean, deps; cbn.
  by rewrite scale_each_fmap.
Qed.

(** The constructor. *)
Lemma Uncertain_new_unfold h mu sigma :
  Uncertain_new h mu sigma =
  ({| m_mean_ := mu;
      m_std_ := vsqrt (sum_sq (h ++ [{| iv_std := sigma |}]) {[ length h := v1 ]});
      m_deps_ := {[ length h := v1 ]} |},
   h ++ [{| iv_std := sigma |}]).
Proof. reflexivity. Qed.
End OperatorFacts.

(** ** The standard-deviation invariant holds for every built value *)
Section Invariant.
Context {T : Type} `{ValueType T}.
Local Open Scope val_scope.
Variable std_pow : T → T → T.
Implicit Types (m : deps_map_t T) (h : Heap T) (u x y : Uncertain T).

(** *** The sum only reads the objects the map points to *)

Lemma foldl_sum_sq_ext h h' (l : list (ind_var_ptr * T)) acc :
  Forall (λ kd, dep_std h kd.1 = dep_std h' kd.1) l →
  foldl (λ acc '(dep, deriv),
           acc + (deriv * deriv) * (dep_std h dep * dep_std h dep)) acc l
  = foldl (λ acc '(dep, deriv),
           acc + (deriv * deriv) * (dep_std h' dep * dep_std h' dep)) acc l.
Proof.
  intros Hl. revert acc.
  induction Hl as [|[k d] l Hk _ IH]; intros acc; [done|].
  cbn [foldl]. cbn [fst] in Hk. by rewrite IH, Hk.
Qed.

Lemma sum_sq_ext h h' m :
  (∀ k, is_Some (m !! k) → dep_std h k = dep_std h' k) →
  sum_sq h m = sum_sq h' m.
Proof.
  intros Hm. unfold sum_sq. apply foldl_sum_sq_ext.
  apply Forall_forall. intros [k d] Hin. cbn [fst].
  apply Hm. apply elem_of_begin_end in Hin. by rewrite Hin.
Qed.

Lemma dep_std_alloc h v k : k < length h → dep_std (h ++ [v]) k = dep_std h k.
Proof. intros Hk. unfold dep_std. by rewrite lookup_app_l. Qed.

Lemma sum_sq_alloc h v m : map_alive h m → sum_sq (h ++ [v]) m = sum_sq h m.
Proof. intros Hm. apply sum_sq_ext. intros k Hk. apply dep_std_alloc; auto. Qed.

(** *** The loops keep the keys alive *)

Lemma map_alive_scale_each h m v : map_alive h m → map_alive h (scale_each m v).
Proof.
  intros Hm k. rewrite scale_each_fmap, lookup_fmap, fmap_is_Some. apply Hm.
Qed.

Lemma map_alive_update_dependencies h m d s :
  map_alive h m → map_alive h d → map_alive h (update_dependencies m d s).
Proof.
  intros Hm Hd k. rewrite update_dependencies_lookup.
  destruct (d !! k) eqn:Ed; cbn.
  - intros _. apply Hd. by rewrite Ed.
  - apply Hm.
Qed.

Lemma map_alive_empty h : map_alive h (∅ : deps_map_t T).
Proof. intros k. rewrite lookup_empty. by intros [? ?]. Qed.

Lemma map_alive_alloc h v m : map_alive h m → map_alive (h ++ [v]) m.
Proof. intros Hm k Hk. rewrite length_app. cbn. specialize (Hm k Hk). lia. Qed.

Lemma map_alive_new h v (c : T) : map_alive (h ++ [v]) {[ length h := c ]}.
Proof.
  intros k [d Hk]. apply lookup_singleton_Some in Hk as [<- _].
  rewrite length_app. cbn. lia.
Qed.

Lemma deref_alive h x r :
  deps_alive h x → (∀ y, r = other_object y → deps_alive h y) →
  ∀ x', m_deps_ x' = m_deps_ x → map_alive h (deps (deref x' r)).
Proof.
  intros Hx Hr x' Hx'. destruct r as [|y]; cbn; unfold deps.
  - by rewrite Hx'.
  - by apply Hr.
Qed.

(** Every built value carries the derived standard deviation, and its keys
    are alive. *)
Lemma built_inv h u :
  built std_pow h u → std_derived h u ∧ deps_alive h u.
Proof.
  induction 1 as
    [ h mu sigma
    | h u v _ [IHs IHa]
    | h u v _ [IHs IHa] | h u v _ [IHs IHa] | N NT h u exp _ [IHs IHa]
    | h u _ [IHs IHa]
    | h x r _ [IHs IHa] _ IHr | h x y _ [IHs IHa] _ [IHsy IHay]
    | h x r _ [IHs IHa] _ IHr | h x y _ [IHs IHa] _ [IHsy IHay]
    | h x r _ [IHs IHa] _ IHr | h x y _ [IHs IHa] _ [IHsy IHay]
    | h x v _ [IHs IHa] | h x v _ [IHs IHa] | h x v _ [IHs IHa]
    | h x r _ [IHs IHa] _ IHr | h x y _ [IHs IHa] _ [IHsy IHay]
    | h x v _ [IHs IHa] | h x v _ [IHs IHa] | h x v _ [IHs IHa]
    | h x y any_mean any_std _ [IHs IHa] _ [IHsy IHay]
    | h x r _ [IHs IHa] _ IHr
    | h x y any_mean any_std _ [IHs IHa] _ [IHsy IHay]
    | h x v _ [IHs IHa] | h x v _ [IHs IHa] ];
    try (assert (IHr' : ∀ y, r = other_object y → deps_alive h y)
           by (intros y0 Hy0; apply (IHr y0 Hy0)));
    (split; [try reflexivity|]).
  - apply map_alive_new.
  - unfold std_derived. cbn. by rewrite sum_sq_alloc.
  - by apply map_alive_alloc.
  - by apply map_alive_scale_each.
  - by apply map_alive_scale_each.
  - by apply map_alive_scale_each.
  - by apply map_alive_scale_each.
  - apply map_alive_update_dependencies; [done|].
    by apply (deref_alive h x r).
  - by apply map_alive_update_dependencies.
  - apply map_alive_update_dependencies; [done|].
    by apply (deref_alive h x r).
  - by apply map_alive_update_dependencies.
  - apply map_alive_update_dependencies; [by apply map_alive_scale_each|].
    destruct r as [|y]; cbn; unfold deps; cbn.
    + by apply map_alive_scale_each.
    + by apply IHr'.
  - apply map_alive_update_dependencies; [by apply map_alive_scale_each|done].
  - by apply map_alive_scale_each.
  - by apply map_alive_scale_each.
  - by apply map_alive_scale_each.
  - apply map_alive_update_dependencies; [by apply map_alive_scale_each|].
    destruct r as [|y]; cbn; unfold deps; cbn.
    + by apply map_alive_scale_each.
    + by apply IHr'.
  - apply map_alive_update_dependencies; [by apply map_alive_scale_each|done].
  - by apply map_alive_scale_each.
  - by apply map_alive_scale_each.
  - by apply map_alive_scale_each.
  - apply map_alive_update_dependencies; [|done].
    apply map_alive_update_dependencies; [apply map_alive_empty|done].
  - apply map_alive_update_dependencies; [done|].
    by apply (deref_alive h x r).
  - apply map_alive_update_dependencies; [|done].
    apply map_alive_update_dependencies; [apply map_alive_empty|done].
  - by apply map_alive_scale_each.
  - by apply map_alive_scale_each.
Qed.
End Invariant.

(** ** Facts over the real numbers *)
Section RealFacts.
Local Open Scope R_scope.

(** *** The power function at the exponents the operators pass *)

Lemma Int_part_IZR (z : Z) : Int_part (IZR z) = z.
Proof. symmetry. apply Int_part_spec. lra. Qed.

Lemma Rstd_pow_integral (x : R) (z : Z) : Rstd_pow x (IZR z) = powerRZ x z.
Proof.
  unfold Rstd_pow. rewrite Int_part_IZR.
  destruct (Req_dec_T (IZR z) (IZR z)) as [_|Hne]; [done|]. by destruct Hne.
Qed.

Lemma Rstd_pow_2 (x : R) : Rstd_pow x 2 = x * x.
Proof.
  rewrite (Rstd_pow_integral x 2). unfold powerRZ.
  change (Pos.to_nat 2) with 2%nat. simpl. lra.
Qed.

Lemma Rstd_pow_1 (x : R) : Rstd_pow x 1 = x.
Proof.
  rewrite (Rstd_pow_integral x 1). unfold powerRZ.
  change (Pos.to_nat 1) with 1%nat. simpl. lra.
Qed.

(** *** The sum of squares *)

Lemma Rsum_perm (l l' : list R) : l ≡ₚ l' → Rsum l = Rsum l'.
Proof.
  unfold Rsum.
  induction 1 as [|a l l' _ IH|a b l|l1 l2 l3 _ IH1 _ IH2]; cbn [foldr].
  - done.
  - by rewrite IH.
  - lra.
  - by rewrite IH1.
Qed.

Lemma Rsum_nil : Rsum [] = 0.
Proof. reflexivity. Qed.

Lemma Rsum_cons (a : R) (l : list R) : Rsum (a :: l) = a + Rsum l.
Proof. reflexivity. Qed.

Lemma Rsum_nonneg (l : list R) : Forall (λ a, 0 <= a) l → 0 <= Rsum l.
Proof.
  induction 1 as [|a l Ha _ IH]; [rewrite Rsum_nil|rewrite Rsum_cons]; lra.
Qed.

Lemma foldl_sum_sq_Rsum (h : Heap R) (l : list (ind_var_ptr * R)) (acc : R) :
  foldl (λ acc '(dep, deriv),
           (acc + (deriv * deriv) * (dep_std h dep * dep_std h dep))%V) acc l
  = acc + Rsum (spec_term h <$> l).
Proof.
  revert acc. induction l as [|[k d] l IH]; intros acc; cbn [foldl].
  - rewrite fmap_nil, Rsum_nil. lra.
  - rewrite IH, fmap_cons, Rsum_cons. unfold spec_term at 2. vsimpl.
    cbn [fst snd]. lra.
Qed.

(** The loop of [calculate_std] adds up the terms of the spec's sum. *)
Lemma sum_sq_spec (h : Heap R) (m : deps_map_t R) : sum_sq h m = spec_sum h m.
Proof.
  unfold sum_sq, spec_sum. rewrite foldl_sum_sq_Rsum. vsimpl.
  rewrite (Rsum_perm _ (spec_term h <$> map_to_list m)).
  - lra.
  - apply fmap_Permutation, begin_end_perm.
Qed.

Lemma spec_sum_empty (h : Heap R) : spec_sum h ∅ = 0.
Proof. unfold spec_sum. by rewrite map_to_list_empty. Qed.

Lemma spec_sum_insert (h : Heap R) (m : deps_map_t R) k c :
  m !! k = None →
  spec_sum h (<[k := c]> m) = c ^ 2 * dep_std h k ^ 2 + spec_sum h m.
Proof.
  intros Hk. unfold spec_sum.
  rewrite (Rsum_perm _ (spec_term h <$> (k, c) :: map_to_list m)).
  - by rewrite fmap_cons, Rsum_cons.
  - apply fmap_Permutation. by apply map_to_list_insert.
Qed.

Lemma spec_sum_singleton (h : Heap R) k c :
  spec_sum h {[ k := c ]} = c ^ 2 * dep_std h k ^ 2.
Proof.
  rewrite <- insert_empty, spec_sum_insert by apply lookup_empty.
  rewrite spec_sum_empty. lra.
Qed.

Lemma spec_sum_fmap_scale (h : Heap R) (m : deps_map_t R) (s : R) :
  spec_sum h ((λ c, c * s) <$> m) = s ^ 2 * spec_sum h m.
Proof.
  unfold spec_sum. rewrite map_to_list_fmap.
  induction (map_to_list m) as [|[k c] l IH].
  - rewrite !fmap_nil, Rsum_nil. lra.
  - rewrite !fmap_cons, !Rsum_cons, IH. unfold spec_term, prod_map.
    cbn [fst snd]. unfold Datatypes.id. ring.
Qed.

Lemma spec_sum_nonneg (h : Heap R) (m : deps_map_t R) : 0 <= spec_sum h m.
Proof.
  apply Rsum_nonneg, Forall_fmap, Forall_forall. intros [k c] _.
  unfold spec_term; cbn [fst snd compose]. nra.
Qed.

Lemma spec_sum_zero (h : Heap R) (m : deps_map_t R) :
  (∀ k c, m !! k = Some c → c = 0) → spec_sum h m = 0.
Proof.
  intros Hm. unfold spec_sum.
  assert (Hl : Forall (λ e, e.2 = 0) (map_to_list m)).
  { apply Forall_forall. intros [k c] Hin. cbn.
    apply (Hm k). by apply elem_of_map_to_list. }
  induction Hl as [|[k c] l Hc _ IH]; [done|].
  rewrite fmap_cons, Rsum_cons, IH. cbn [snd] in Hc. subst c.
  unfold spec_term; cbn [fst snd]. lra.
Qed.

(** The derived standard deviation is the spec's root of the sum of
    squares. *)
Lemma std_derived_spec (h : Heap R) (u : Uncertain R) :
  std_derived h u → std u = spec_std h (deps u).
Proof.
  unfold std_derived, std, deps, spec_std. intros ->. vsimpl.
  by rewrite sum_sq_spec.
Qed.

(** *** Looking up freshly allocated objects *)

Lemma dep_std_last (h : Heap R) (v : IndependentVariable R) :
  dep_std (h ++ [v]) (length h) = iv_std v.
Proof. unfold dep_std. by rewrite list_lookup_middle. Qed.

Lemma dep_std_last_but_one (h : Heap R) (v w : IndependentVariable R) :
  dep_std ((h ++ [v]) ++ [w]) (length h) = iv_std v.
Proof.
  rewrite dep_std_alloc by (rewrite length_app; cbn; lia).
  apply dep_std_last.
Qed.

Lemma dep_std_last_of_two (h : Heap R) (v w : IndependentVariable R) :
  dep_std ((h ++ [v]) ++ [w]) (S (length h)) = iv_std w.
Proof.
  replace (S (length h)) with (length (h ++ [v]))
    by (rewrite length_app; cbn; lia).
  apply dep_std_last.
Qed.
End RealFacts.

(** ** The constructor and the scalar operators over the reals *)
Section RealClaims.
Local Open Scope R_scope.

Lemma sqrt_eq (x y : R) : 0 <= y → x = y * y → sqrt x = y.
Proof. intros Hy ->. by apply sqrt_square. Qed.

(** The value of [m_std_] after [calculate_std], by the spec's sum. *)
Lemma vsqrt_sum_sq (h : Heap R) (m : deps_map_t R) :
  vsqrt (sum_sq h m) = sqrt (spec_sum h m).
Proof. vsimpl. by rewrite sum_sq_spec. Qed.

Lemma Uncertain_new_std (h : Heap R) (mu sigma : R) :
  0 <= sigma → std (Uncertain_new h mu sigma).1 = sigma.
Proof.
  intros Hs. rewrite Uncertain_new_unfold. unfold std. cbn [fst m_std_].
  rewrite vsqrt_sum_sq, spec_sum_singleton, dep_std_last. vsimpl.
  cbn [iv_std]. apply sqrt_eq; [done|ring].
Qed.


(** Scaling every coefficient by [k] scales the derived standard deviation
    by [|k|]. *)
Lemma sqrt_spec_sum_scale (h : Heap R) (m : deps_map_t R) (k : R) :
  sqrt (spec_sum h ((λ d, d * k) <$> m)) = Rabs k * sqrt (spec_sum h m).
Proof.
  rewrite spec_sum_fmap_scale.
  rewrite sqrt_mult_alt by nra.
  replace (k ^ 2) with (Rsqr k) by (unfold Rsqr; ring).
  by rewrite sqrt_Rsqr_abs.
Qed.

(** C1: for every value a program builds (by the constructor, by copying,
    by any operator of the four source files, by [pow], by a compound
    assignment with either kind of right operand), the stored standard
    deviation is the square root of the sum, over the entries of the
    dependency map, of the squared coefficient times the squared standard
    deviation of the independent variable; recomputing it changes nothing,
    so it is always the derived one. *)
Theorem std_is_root_sum_of_squares
    (std_pow : R → R → R) (h : Heap R) (u : Uncertain R) :
  built std_pow h u →
  std u = spec_std h (deps u) ∧ calculate_std h u = u.
Proof.
  intros Hb. destruct (built_inv std_pow h u Hb) as [Hs _]. split.
  - by apply std_derived_spec.
  - apply uncertain_eq; [done| |done]. cbn [calculate_std m_std_].
    symmetry. apply Hs.
Qed.

(** C5: [Uncertain(m, sigma)], for a standard deviation [sigma] (so
    [0 <= sigma]), has mean [m], standard deviation [sigma], and a dependency
    map with exactly one entry: the address of a newly allocated independent
    variable of standard deviation [sigma], with coefficient 1.  The objects
    allocated before are untouched. *)
Theorem Uncertain_new_spec (h : Heap R) (mu sigma : R) :
  0 <= sigma →
  let '(u, h') := Uncertain_new h mu sigma in
  mean u = mu ∧ std u = sigma ∧
  ∃ p : ind_var_ptr,
    deps u = {[ p := 1 ]} ∧ size (deps u) = 1%nat ∧
    h !! p = None ∧ h' !! p = Some {| iv_std := sigma |} ∧
    ∀ q v, h !! q = Some v → h' !! q = Some v.
Proof.
  intros Hs. pose proof (Uncertain_new_std h mu sigma Hs) as Hstd.
  rewrite Uncertain_new_unfold in *. cbn [fst] in Hstd.
  split; [done|]. split; [done|]. exists (length h).
  unfold deps; cbn [m_deps_]. vsimpl. split_and!.
  - done.
  - apply map_size_singleton.
  - by apply lookup_ge_None_2.
  - apply list_lookup_middle. done.
  - intros q v Hq. by apply lookup_app_l_Some.
Qed.


(** [x.pow(p)] for every type of the exponent: the mean is
    [std::pow(mean(x), p)], every coefficient of [x] is scaled by
    [p * std::pow(mean(x), q)], where [q] is [p - 1] as the type of [p]
    evaluates it, and the standard deviation is derived from the new map. *)
Lemma pow_numeric_real {N : Type} `{NumericType N R} (std_pow : R → R → R)
    (h : Heap R) (x : Uncertain R) (p : N) :
  let c := UncertainHpp.pow std_pow h x p in
  mean c = std_pow (mean x) (to_value p) ∧
  deps c = (λ d, d * (to_value p * std_pow (mean x) (to_value (sub_one p))))
             <$> deps x ∧
  std c = spec_std h (deps c).
Proof.
  intros c. subst c. rewrite pow_numeric_unfold.
  unfold mean, deps, std, spec_std. cbn [m_mean_ m_deps_ m_std_].
  rewrite vsqrt_sum_sq. done.
Qed.

(** [exp - 1] in [int] is the predecessor. *)
Lemma int_sub_one_real (p : c_int) :
  to_value (sub_one p) = (to_value p - 1 : R).
Proof.
  destruct p as [z]. change (IZR (z - 1) = IZR z - 1). by rewrite minus_IZR.
Qed.

(** [exp - 1] in [unsigned int] is the predecessor, except at 0. *)
Lemma unsigned_sub_one_no_wrap (p : c_unsigned) :
  (1 <= uint_val p < 2 ^ 32)%Z →
  to_value (sub_one p) = (to_value p - 1 : R).
Proof.
  destruct p as [z]. cbn [uint_val]. intros Hp.
  change (IZR ((z - 1) mod 2 ^ 32) = IZR z - 1).
  rewrite Z.mod_small by lia. by rewrite minus_IZR.
Qed.

(** [Uncertain(4, 0.2).pow(2)], the exponent an [int]. *)
Lemma pow_of_4 (std_pow : R → R → R) (h : Heap R) :
  std_pow 4 2 = 16 → std_pow 4 1 = 4 →
  let '(x, h') := Uncertain_new h 4 0.2 in
  let c := UncertainHpp.pow std_pow h' x (Int 2) in
  mean c = 16 ∧ std c = 1.6.
Proof.
  intros H2 H1. rewrite Uncertain_new_unfold, pow_numeric_unfold.
  unfold mean, deps, std. cbn [m_mean_ m_deps_ m_std_].
  rewrite vsqrt_sum_sq.
  cbn [to_value sub_one int_NumericType_R int_sub_one int_val].
  change (2 - 1)%Z with 1%Z. vsimpl. rewrite H1, H2.
  split; [done|].
  rewrite map_fmap_singleton, spec_sum_singleton, dep_std_last.
  cbn [iv_std]. apply sqrt_eq; lra.
Qed.
End RealClaims.

(** ** The binary operators over the reals *)
Section RealBinaryClaims.
Local Open Scope R_scope.

Lemma merge_scaled_singletons (p q : ind_var_ptr) (a s b t : R) :
  p ≠ q →
  merge_scaled ({[ p := a ]} : deps_map_t R) s {[ q := b ]} t
  = <[ p := a * s ]> {[ q := b * t ]}.
Proof.
  intros Hpq. apply map_eq; intros k.
  rewrite merge_scaled_lookup, lookup_insert, !lookup_singleton. vsimpl.
  destruct (decide (p = k)) as [->|Hp], (decide (q = k)) as [->|Hq];
    done.
Qed.

Lemma spec_sum_pair (h : Heap R) (p q : ind_var_ptr) (a b : R) :
  p ≠ q →
  spec_sum h (<[ p := a ]> {[ q := b ]})
  = a ^ 2 * dep_std h p ^ 2 + b ^ 2 * dep_std h q ^ 2.
Proof.
  intros Hpq. rewrite spec_sum_insert by by apply lookup_singleton_ne.
  by rewrite spec_sum_singleton.
Qed.

(** Two values constructed one after the other: the first depends on the
    object allocated first, the second on the one allocated next. *)
Lemma Uncertain_new_pair (h : Heap R) (mu1 sigma1 mu2 sigma2 : R) :
  let '(x, h1) := Uncertain_new h mu1 sigma1 in
  let '(y, h2) := Uncertain_new h1 mu2 sigma2 in
  mean x = mu1 ∧ mean y = mu2 ∧
  deps x = {[ length h := 1 ]} ∧ deps y = {[ S (length h) := 1 ]} ∧
  dep_std h2 (length h) = sigma1 ∧ dep_std h2 (S (length h)) = sigma2.
Proof.
  rewrite !Uncertain_new_unfold. unfold mean, deps. cbn [m_mean_ m_deps_].
  rewrite dep_std_last_but_one, dep_std_last_of_two. cbn [iv_std].
  rewrite length_app, Nat.add_1_r. done.
Qed.

(** The derived standard deviation of a merge of two such values. *)
Lemma std_merge_pair (h2 : Heap R) (n : nat) (s t : R) :
  sqrt (sum_sq h2 (merge_scaled {[ n := 1 ]} s {[ S n := 1 ]} t))
  = sqrt (s ^ 2 * dep_std h2 n ^ 2 + t ^ 2 * dep_std h2 (S n) ^ 2).
Proof.
  rewrite sum_sq_spec, merge_scaled_singletons by lia.
  rewrite spec_sum_pair by lia. f_equal. ring.
Qed.

(** C2: [x * y] has mean [mean(x) * mean(y)]; its dependency map is the map
    of [x] with every coefficient scaled by [mean(y)] merged with the map of
    [y] with every coefficient scaled by the mean [x] had, a variable of
    both getting the sum; its standard deviation is derived from that map;
    [x *= y] on distinct objects leaves the same value in [x]; and for
    [x = Uncertain(2, 0.1)], [y = Uncertain(3, 0.2)] the product has mean 6
    and standard deviation 0.5. *)
Theorem product_rule :
  (∀ (h : Heap R) (x y : Uncertain R),
     let c := OperationsIpp.operator_mul h x y in
     mean c = mean x * mean y ∧
     deps c = union_with (λ a b, Some (a + b))
                ((λ d, d * mean y) <$> deps x) ((λ d, d * mean x) <$> deps y) ∧
     (∀ k, deps c !! k =
           match deps x !! k, deps y !! k with
           | Some a, Some b => Some (a * mean y + b * mean x)
           | Some a, None => Some (a * mean y)
           | None, Some b => Some (b * mean x)
           | None, None => None
           end) ∧
     std c = spec_std h (deps c) ∧
     OperationsIpp.operator_mul_assign h x (other_object y) = c) ∧
  (∀ h : Heap R,
     let '(x, h1) := Uncertain_new h 2 0.1 in
     let '(y, h2) := Uncertain_new h1 3 0.2 in
     let c := OperationsIpp.operator_mul h2 x y in
     mean c = 6 ∧ std c = 0.5).
Proof.
  split.
  - intros h x y c. subst c. rewrite operator_mul_unfold.
    unfold mean, deps, std, spec_std. cbn [m_mean_ m_deps_ m_std_].
    split_and!; [done|done| |by rewrite vsqrt_sum_sq|].
    + intros k. by rewrite merge_scaled_lookup.
    + exact (operator_mul_unfold h x y).
  - intros h. pose proof (Uncertain_new_pair h 2 0.1 3 0.2) as Hp.
    destruct (Uncertain_new h 2 0.1) as [x h1].
    destruct (Uncertain_new h1 3 0.2) as [y h2].
    destruct Hp as (Hx & Hy & Hdx & Hdy & Hs1 & Hs2).
    rewrite operator_mul_unfold. unfold mean, std in *.
    cbn [m_mean_ m_std_]. rewrite Hx, Hy, Hdx, Hdy. vsimpl.
    split; [lra|].
    rewrite (std_merge_pair h2 (length h) 3 2), Hs1, Hs2.
    apply sqrt_eq; lra.
Qed.

(** C3: [x / y] has mean [mean(x) / mean(y)]; its dependency map is the map
    of [x] scaled by [1 / mean(y)] merged with the map of [y] scaled by
    [-mean(x) / mean(y)^2]; division.cpp, part_002 and [x /= y] on distinct
    objects give the same value;
    and for [x = Uncertain(10, 1)], [y = Uncertain(2, 0.1)] the quotient has
    mean 5 and standard deviation [sqrt(0.25 + 0.0625)], which lies between
    0.5590 and 0.5591. *)
Theorem quotient_rule :
  (∀ (h : Heap R) (x y : Uncertain R),
     let c := OperationsIpp.operator_div Rstd_pow h x y in
     mean c = mean x / mean y ∧
     deps c = union_with (λ a b, Some (a + b))
                ((λ d, d * (1 / mean y)) <$> deps x)
                ((λ d, d * (- mean x / mean y ^ 2)) <$> deps y) ∧
     std c = spec_std h (deps c) ∧
     OperationsIpp.operator_div_assign Rstd_pow h x (other_object y) = c ∧
     (∀ any_mean any_std,
        DivisionCpp.operator_div Rstd_pow any_mean any_std h x y = c)) ∧
  (∀ h : Heap R,
     let '(x, h1) := Uncertain_new h 10 1 in
     let '(y, h2) := Uncertain_new h1 2 0.1 in
     let c := OperationsIpp.operator_div Rstd_pow h2 x y in
     mean c = 5 ∧ std c = sqrt (0.25 + 0.0625) ∧
     0.5590 < std c < 0.5591).
Proof.
  split.
  - intros h x y c. subst c. split_and!.
    + by rewrite operator_div_unfold.
    + rewrite operator_div_unfold. unfold deps, merge_scaled.
      cbn [m_deps_]. vsimpl. rewrite Rstd_pow_2.
      by replace (mean y * mean y) with (mean y ^ 2) by ring.
    + rewrite operator_div_unfold. unfold std, deps, spec_std.
      cbn [m_std_ m_deps_]. by rewrite vsqrt_sum_sq.
    + reflexivity.
    + intros any_mean any_std. apply operator_div_cpp.
  - intros h. pose proof (Uncertain_new_pair h 10 1 2 0.1) as Hp.
    destruct (Uncertain_new h 10 1) as [x h1].
    destruct (Uncertain_new h1 2 0.1) as [y h2].
    destruct Hp as (Hx & Hy & Hdx & Hdy & Hs1 & Hs2).
    rewrite operator_div_unfold. unfold mean, std in *.
    cbn [m_mean_ m_std_]. rewrite Hx, Hy, Hdx, Hdy. vsimpl.
    rewrite Rstd_pow_2.
    rewrite (std_merge_pair h2 (length h) (1 / 2) (Ropp 10 / (2 * 2))),
      Hs1, Hs2.
    replace ((1 / 2) ^ 2 * 1 ^ 2 + (Ropp 10 / (2 * 2)) ^ 2 * 0.1 ^ 2)
      with (0.25 + 0.0625) by lra.
    split_and!; [lra|done| |].
    + rewrite <- (sqrt_square 0.5590) at 1 by lra.
      apply sqrt_lt_1; lra.
    + rewrite <- (sqrt_square 0.5591) at 1 by lra.
      apply sqrt_lt_1; lra.
Qed.
End RealBinaryClaims.

(** ** Correlation: a value combined with itself *)
Section RealCorrelationClaims.
Local Open Scope R_scope.

(** In [x - x] every coefficient cancels; the entries stay in the map. *)
Lemma self_difference_coefficients (m : deps_map_t R) (s : R) k c :
  merge_scaled m s m (- s) !! k = Some c → c = 0.
Proof.
  rewrite merge_scaled_lookup. vsimpl.
  destruct (m !! k) as [d|]; [|done]. intros [= <-]. ring.
Qed.

Lemma union_with_merge_scaled (a b : deps_map_t R) (t : R) :
  union_with (λ c d, Some (c + d)%V) a ((λ d, d * t)%V <$> b)
  = merge_scaled a 1 b t.
Proof.
  unfold merge_scaled. f_equal. apply map_eq; intros k.
  rewrite lookup_fmap. destruct (a !! k); cbn; [|done]. vsimpl.
  f_equal. ring.
Qed.

Lemma self_difference_std (h : Heap R) (m : deps_map_t R) :
  sqrt (sum_sq h (merge_scaled m 1 m (- 1))) = 0.
Proof.
  rewrite sum_sq_spec, spec_sum_zero; [apply sqrt_0|].
  intros k c. apply self_difference_coefficients.
Qed.

(** The difference of two values constructed one after the other from the
    same mean and standard deviation. *)
Lemma independent_difference_std (h : Heap R) (mu sigma : R) :
  0 <= sigma →
  let '(x, h1) := Uncertain_new h mu sigma in
  let '(y, h2) := Uncertain_new h1 mu sigma in
  std (OperationsIpp.operator_sub h2 x y) = sqrt 2 * sigma ∧
  ∀ any_mean any_std,
    std (SubtractionCpp.operator_sub any_mean any_std h2 x y) = sqrt 2 * sigma.
Proof.
  intros Hs. pose proof (Uncertain_new_pair h mu sigma mu sigma) as Hp.
  destruct (Uncertain_new h mu sigma) as [x h1].
  destruct (Uncertain_new h1 mu sigma) as [y h2].
  destruct Hp as (Hx & Hy & Hdx & Hdy & Hs1 & Hs2).
  assert (Hstd : sqrt (sum_sq h2 (merge_scaled {[ length h := 1 ]} 1
                                   {[ S (length h) := 1 ]} (- 1)))
                 = sqrt 2 * sigma).
  { rewrite std_merge_pair, Hs1, Hs2.
    replace (1 ^ 2 * sigma ^ 2 + (- 1) ^ 2 * sigma ^ 2)
      with (2 * (sigma * sigma)) by ring.
    rewrite sqrt_mult_alt by lra. by rewrite sqrt_square. }
  split.
  - rewrite operator_sub_unfold. unfold std. cbn [m_std_].
    rewrite union_with_merge_scaled, Hdx, Hdy. vsimpl. apply Hstd.
  - intros any_mean any_std. rewrite operator_sub_cpp_unfold.
    unfold std. cbn [m_std_]. rewrite Hdx, Hdy. vsimpl. apply Hstd.
Qed.

(** Two values constructed independently from (1, 0) have a difference of
    standard deviation 0, not a positive one. *)
Lemma independent_difference_of_exact_values :
  let '(x, h1) := Uncertain_new ([] : Heap R) 1 0 in
  let '(y, h2) := Uncertain_new h1 1 0 in
  ¬ (0 < std (OperationsIpp.operator_sub h2 x y)) ∧
  ¬ (0 < std (SubtractionCpp.operator_sub 0 0 h2 x y)).
Proof.
  pose proof (independent_difference_std [] 1 0 ltac:(lra)) as Hd.
  destruct (Uncertain_new ([] : Heap R) 1 0) as [x h1].
  destruct (Uncertain_new h1 1 0) as [y h2].
  destruct Hd as [Hd1 Hd2]. rewrite Hd1, (Hd2 0 0). lra.
Qed.

(** In exact arithmetic [x - x] has mean 0 and standard deviation 0, by the
    operator of part_002 and by the one of subtraction.cpp; for [x] and [y]
    constructed independently from the same mean and the same standard
    deviation [sigma > 0], [x] and [y] have equal mean and standard
    deviation and [x - y] has standard deviation [sqrt(2) * sigma], which is
    positive. *)
Lemma difference_in_exact_arithmetic :
  (∀ (h : Heap R) (x : Uncertain R),
     let c := OperationsIpp.operator_sub h x x in
     mean c = 0 ∧ std c = 0) ∧
  (∀ (h : Heap R) (x : Uncertain R) (any_mean any_std : R),
     let c := SubtractionCpp.operator_sub any_mean any_std h x x in
     mean c = 0 ∧ std c = 0) ∧
  (∀ (h : Heap R) (mu sigma : R),
     0 < sigma →
     let '(x, h1) := Uncertain_new h mu sigma in
     let '(y, h2) := Uncertain_new h1 mu sigma in
     mean x = mean y ∧ std x = std y ∧ deps x ≠ deps y ∧
     (let c := OperationsIpp.operator_sub h2 x y in
      std c = sqrt 2 * sigma ∧ 0 < std c) ∧
     (∀ any_mean any_std,
        let c := SubtractionCpp.operator_sub any_mean any_std h2 x y in
        std c = sqrt 2 * sigma ∧ 0 < std c)).
Proof.
  split_and!.
  - intros h x c. subst c. rewrite operator_sub_unfold.
    unfold mean, std. cbn [m_mean_ m_std_].
    rewrite union_with_merge_scaled. vsimpl.
    split; [lra|apply self_difference_std].
  - intros h x any_mean any_std c. subst c. rewrite operator_sub_cpp_unfold.
    unfold mean, std. cbn [m_mean_ m_std_]. vsimpl.
    split; [lra|apply self_difference_std].
  - intros h mu sigma Hs.
    pose proof (independent_difference_std h mu sigma ltac:(lra)) as Hd.
    pose proof (Uncertain_new_pair h mu sigma mu sigma) as Hp.
    pose proof (Uncertain_new_std h mu sigma ltac:(lra)) as Hsx.
    pose proof (Uncertain_new_std (Uncertain_new h mu sigma).2 mu sigma
                  ltac:(lra)) as Hsy.
    destruct (Uncertain_new h mu sigma) as [x h1]. cbn [fst snd] in *.
    destruct (Uncertain_new h1 mu sigma) as [y h2]. cbn [fst snd] in *.
    destruct Hp as (Hx & Hy & Hdx & Hdy & _). destruct Hd as [Hd1 Hd2].
    assert (Hpos : 0 < sqrt 2 * sigma).
    { apply Rmult_lt_0_compat; [apply sqrt_lt_R0; lra|done]. }
    split; [congruence|]. split; [congruence|].
    split; [|split].
    + rewrite Hdx, Hdy. intros Heq.
      assert (Hl : ({[ length h := 1 ]} : deps_map_t R) !! length h = Some 1)
        by apply lookup_singleton_eq.
      rewrite Heq, lookup_singleton_ne in Hl by lia. done.
    + cbv zeta. by rewrite Hd1.
    + intros any_mean any_std. cbv zeta. by rewrite Hd2.
Qed.

(** The binary product [x * x] and [x.pow(2)], the exponent an [int]: the
    product has the mean [mean(x) * mean(x)] and the coefficients
    [2 * mean(x) * d]; the power has the mean [std::pow(mean(x), 2)] and the
    coefficients [d * (2 * std::pow(mean(x), 1))].  They are the same value
    when [std::pow] returns the square and the base there, and only when it
    returns the square. *)
Lemma self_product_and_square (std_pow : R → R → R) (h : Heap R)
    (x : Uncertain R) :
  let c := OperationsIpp.operator_mul h x x in
  let p := UncertainHpp.pow std_pow h x (Int 2) in
  (mean c = mean x * mean x ∧
   deps c = (λ d, 2 * mean x * d) <$> deps x) ∧
  (mean p = std_pow (mean x) 2 ∧
   deps p = (λ d, d * (2 * std_pow (mean x) 1)) <$> deps x) ∧
  (std_pow (mean x) 2 = mean x * mean x → std_pow (mean x) 1 = mean x →
   c = p ∧ mean c = mean p ∧ std c = std p ∧ deps c = deps p) ∧
  (c = p → std_pow (mean x) 2 = mean x * mean x).
Proof.
  intros c p.
  assert (Hdeps : merge_scaled (deps x) (mean x) (deps x) (mean x)
                  = (λ d, 2 * mean x * d) <$> deps x).
  { apply map_eq; intros k. rewrite merge_scaled_lookup, lookup_fmap.
    destruct (deps x !! k); cbn; [|done]. vsimpl. f_equal. ring. }
  assert (Hc : c = {| m_mean_ := mean x * mean x;
                      m_std_ :=
                        sqrt (sum_sq h ((λ d, 2 * mean x * d) <$> deps x));
                      m_deps_ := (λ d, 2 * mean x * d) <$> deps x |}).
  { subst c. rewrite operator_mul_unfold, Hdeps. reflexivity. }
  assert (Hp : p = {| m_mean_ := std_pow (mean x) 2;
                      m_std_ :=
                        sqrt (sum_sq h ((λ d, d * (2 * std_pow (mean x) 1))
                                          <$> deps x));
                      m_deps_ :=
                        (λ d, d * (2 * std_pow (mean x) 1)) <$> deps x |}).
  { subst p. rewrite pow_numeric_unfold. reflexivity. }
  split_and!.
  - by rewrite Hc.
  - by rewrite Hc.
  - by rewrite Hp.
  - by rewrite Hp.
  - intros H2 H1.
    assert (Heq : c = p).
    { rewrite Hc, Hp, H2, H1.
      assert (Hm : (λ d, 2 * mean x * d) <$> deps x
                   = (λ d, d * (2 * mean x)) <$> deps x).
      { apply map_fmap_ext. intros k d _. ring. }
      by rewrite Hm. }
    by rewrite Heq.
  - rewrite Hc, Hp. intros [= Hm _ _]. done.
Qed.

End RealCorrelationClaims.

(** ** Equality, for every numeric type *)
Section EqualityFacts.
Context {T : Type} `{ValueType T}.
Local Open Scope val_scope.
Implicit Types (a b : deps_map_t T) (x y : Uncertain T).

Local Instance key_le_total : Total (key_le (T:=T)).
Proof. intros e1 e2. unfold key_le. lia. Qed.

Lemma Sorted_fst_begin_end a : Sorted le (begin_end a).*1.
Proof.
  apply (Sorted_fmap fst key_le le); [by intros e1 e2|].
  apply Sorted_merge_sort, _.
Qed.

Lemma elem_of_fst_begin_end a k : k ∈ (begin_end a).*1 ↔ is_Some (a !! k).
Proof.
  rewrite list_elem_of_fmap. split.
  - intros [[k' d] [Hk Hin]]. cbn [fst] in Hk. subst k'.
    apply elem_of_begin_end in Hin. by rewrite Hin.
  - intros [d Hd]. exists (k, d). split; [done|]. by apply elem_of_begin_end.
Qed.

Lemma std_equal_Forall2 (l1 l2 : list (ind_var_ptr * T)) :
  length l1 = length l2 →
  UncertainHpp.std_equal l1 l2 = true ↔ Forall2 entry_eq l1 l2.
Proof.
  revert l2. induction l1 as [|[k1 d1] l1 IH]; intros [|[k2 d2] l2] Hlen;
    try discriminate; cbn [UncertainHpp.std_equal].
  - split; [constructor|done].
  - injection Hlen as Hlen. specialize (IH l2 Hlen).
    rewrite Forall2_cons. unfold entry_eq at 1. cbn [fst snd].
    destruct (Nat.eqb_spec k1 k2) as [->|Hne]; cbn [andb].
    + destruct (d1 =? d2); [rewrite IH; tauto|].
      split; [done|]. by intros [[_ ?] _].
    + split; [done|]. by intros [[? _] _].
Qed.

(** [operator==] of the maps: the same keys, with coefficients that compare
    equal. *)
Lemma map_equal_agree a b :
  UncertainHpp.map_equal a b = true ↔ deps_agree a b.
Proof.
  unfold UncertainHpp.map_equal. rewrite andb_true_iff, Nat.eqb_eq. split.
  - intros [Hsize Heq].
    apply std_equal_Forall2 in Heq; [|by rewrite !length_begin_end].
    intros k. destruct (a !! k) as [c|] eqn:Ea.
    + apply elem_of_begin_end, list_elem_of_lookup in Ea as [i Hi].
      destruct (Forall2_lookup_l _ _ _ _ _ Heq Hi) as ([k' d] & Hi' & Hk & Hd).
      cbn [fst snd] in Hk, Hd. subst k'.
      apply list_elem_of_lookup_2, elem_of_begin_end in Hi'. by rewrite Hi'.
    + destruct (b !! k) as [d|] eqn:Eb; [|done].
      apply elem_of_begin_end, list_elem_of_lookup in Eb as [i Hi].
      destruct (Forall2_lookup_r _ _ _ _ _ Heq Hi) as ([k' c] & Hi' & Hk & Hd).
      cbn [fst snd] in Hk, Hd. subst k'.
      apply list_elem_of_lookup_2, elem_of_begin_end in Hi'. congruence.
  - intros Hag.
    assert (Hkeys : (begin_end a).*1 = (begin_end b).*1).
    { apply (Sorted_unique le); [apply Sorted_fst_begin_end..|].
      apply NoDup_Permutation; [apply NoDup_fst_begin_end..|].
      intros k. rewrite !elem_of_fst_begin_end. specialize (Hag k).
      destruct (a !! k), (b !! k); try done;
        split; intros [? ?]; first [done | eauto]. }
    assert (Hlen : length (begin_end a) = length (begin_end b)).
    { by rewrite <- (length_fmap fst (begin_end a)), Hkeys, length_fmap. }
    split; [by rewrite <- !length_begin_end|].
    apply std_equal_Forall2; [done|].
    apply Forall2_same_length_lookup_2; [done|].
    intros i [k1 c] [k2 d] Hi1 Hi2.
    assert (k1 = k2) as <-.
    { assert (H1 : (begin_end a).*1 !! i = Some k1)
        by by rewrite list_lookup_fmap, Hi1.
      assert (H2 : (begin_end b).*1 !! i = Some k2)
        by by rewrite list_lookup_fmap, Hi2.
      congruence. }
    apply list_elem_of_lookup_2, elem_of_begin_end in Hi1, Hi2.
    specialize (Hag k1). rewrite Hi1, Hi2 in Hag. done.
Qed.

(** [operator==] of [Uncertain]: the three members compare equal. *)
Lemma operator_eq_spec x y :
  UncertainHpp.operator_eq x y = true ↔
  (mean x =? mean y) = true ∧ (std x =? std y) = true ∧
  deps_agree (deps x) (deps y).
Proof.
  unfold UncertainHpp.operator_eq. rewrite <- map_equal_agree.
  destruct (mean x =? mean y), (std x =? std y),
    (UncertainHpp.map_equal (deps x) (deps y)); cbn; intuition congruence.
Qed.

Lemma deps_agree_sym a b :
  (∀ c d : T, (c =? d) = (d =? c)) → deps_agree a b → deps_agree b a.
Proof.
  intros Hsym Hag k. specialize (Hag k).
  destruct (a !! k), (b !! k); try done. by rewrite Hsym.
Qed.

(** Where [==] of the numeric type is symmetric, so is [operator==]. *)
Lemma operator_eq_sym x y :
  (∀ c d : T, (c =? d) = (d =? c)) →
  UncertainHpp.operator_eq x y = UncertainHpp.operator_eq y x.
Proof.
  intros Hsym. apply eq_true_iff_eq. rewrite !operator_eq_spec.
  rewrite (Hsym (mean x)), (Hsym (std x)).
  split; intros (? & ? & ?); split_and!; try done; by apply deps_agree_sym.
Qed.

(** A value whose members all compare equal to themselves is equal to
    itself. *)
Lemma operator_eq_refl x :
  (mean x =? mean x) = true → (std x =? std x) = true →
  (∀ k d, deps x !! k = Some d → (d =? d) = true) →
  UncertainHpp.operator_eq x x = true.
Proof.
  intros Hm Hs Hd. apply operator_eq_spec. split_and!; [done..|].
  intros k. destruct (deps x !! k) eqn:E; [|done]. by apply (Hd k).
Qed.
End EqualityFacts.

(** ** Equality over the reals *)
Section RealEquality.
Local Open Scope R_scope.

(** Over the reals [operator==] decides equality of the three members, and
    every value is equal to itself. *)
Lemma operator_eq_real (x y : Uncertain R) :
  UncertainHpp.operator_eq x y = true ↔ x = y.
Proof.
  assert (Heqb : ∀ c d : R, (c =? d)%V = true ↔ c = d).
  { intros c d. vsimpl. by destruct (Req_dec_T c d). }
  rewrite operator_eq_spec, !Heqb. split.
  - intros (Hm & Hs & Hd). apply uncertain_eq; [done..|].
    apply map_eq; intros k. specialize (Hd k). unfold deps in Hd.
    destruct (m_deps_ x !! k), (m_deps_ y !! k); try done.
    f_equal. by apply Heqb.
  - intros ->. split_and!; [done..|].
    intros k. destruct (deps y !! k); [|done]. by apply Heqb.
Qed.
End RealEquality.

(** ** Facts over binary64 *)
Section Binary64Facts.
Import PrimFloat SpecFloat FloatOps FloatAxioms.

Lemma SFeqb_diag (s : spec_float) :
  SFeqb s s = match s with S754_nan => false | _ => true end.
Proof.
  destruct s as [b|b| |b m e]; try reflexivity.
  - by destruct b.
  - unfold SFeqb, SFcompare.
    rewrite Z.compare_refl, Pos.compare_cont_refl. by destruct b.
Qed.

Lemma SFeqb_sym (s t : spec_float) : SFeqb s t = SFeqb t s.
Proof.
  unfold SFeqb, SFcompare.
  destruct s as [[]|[]| |[] m e], t as [[]|[]| |[] m' e']; try reflexivity.
  - rewrite (Z.compare_antisym e e').
    change (Pos.compare_cont Eq m' m)
      with (Pos.compare_cont (CompOpp Eq) m' m).
    rewrite <- (Pos.compare_cont_antisym m m' Eq).
    by destruct (Z.compare e e'), (Pos.compare_cont Eq m m').
  - rewrite (Z.compare_antisym e e').
    change (Pos.compare_cont Eq m' m)
      with (Pos.compare_cont (CompOpp Eq) m' m).
    rewrite <- (Pos.compare_cont_antisym m m' Eq).
    by destruct (Z.compare e e'), (Pos.compare_cont Eq m m').
Qed.

(** [==] on binary64 is symmetric. *)
Lemma float_eqb_sym (c d : float) : (c =? d)%V = (d =? c)%V.
Proof. cbn [veqb float_ValueType]. by rewrite !eqb_spec, SFeqb_sym. Qed.

Lemma is_nan_spec (x : float) :
  is_nan x = match Prim2SF x with S754_nan => true | _ => false end.
Proof. unfold is_nan. rewrite eqb_spec, SFeqb_diag. by destruct (Prim2SF x). Qed.

Lemma is_infinity_spec (x : float) :
  is_infinity x = match Prim2SF x with S754_infinity _ => true | _ => false end.
Proof.
  unfold is_infinity. rewrite eqb_spec, abs_spec.
  change (Prim2SF infinity) with (S754_infinity false).
  by destruct (Prim2SF x) as [b|b| |b m e].
Qed.

Lemma is_inf_or_nan_spec (x : float) :
  is_inf_or_nan x = SF_inf_or_nan (Prim2SF x).
Proof.
  unfold is_inf_or_nan. rewrite is_nan_spec, is_infinity_spec.
  by destruct (Prim2SF x).
Qed.

(** A value that compares equal to zero is one of the two zeros. *)
Lemma eqb_zero_spec (z : float) :
  eqb z zero = true → ∃ b, Prim2SF z = S754_zero b.
Proof.
  rewrite eqb_spec. change (Prim2SF zero) with (S754_zero false).
  destruct (Prim2SF z) as [b|b| |b m e]; try discriminate; eauto.
  - by destruct b.
  - by destruct b.
Qed.

(** Anything divided by a zero is an infinity or a NaN. *)
Lemma div_by_zero (a z : float) :
  eqb z zero = true → is_inf_or_nan (div a z) = true.
Proof.
  intros [b Hz]%eqb_zero_spec. rewrite is_inf_or_nan_spec, div_spec, Hz.
  by destruct (Prim2SF a).
Qed.

(** Anything times an infinity or a NaN is an infinity or a NaN. *)
Lemma mul_inf_or_nan (a b : float) :
  is_inf_or_nan b = true → is_inf_or_nan (mul a b) = true.
Proof.
  rewrite !is_inf_or_nan_spec, mul_spec.
  by destruct (Prim2SF a), (Prim2SF b).
Qed.

Lemma add_inf_or_nan (a b : float) :
  is_inf_or_nan a = true → is_inf_or_nan b = true →
  is_inf_or_nan (add a b) = true.
Proof.
  rewrite !is_inf_or_nan_spec, add_spec.
  destruct (Prim2SF a) as [[]|[]| |], (Prim2SF b) as [[]|[]| |]; done.
Qed.

(** Merging, with such a scale factor, into a map of such coefficients. *)
Lemma update_dependencies_inf_or_nan (m deps : deps_map_t float) (t : float)
    k d :
  (∀ k' a, m !! k' = Some a → is_inf_or_nan a = true) →
  is_inf_or_nan t = true →
  update_dependencies m deps t !! k = Some d → is_inf_or_nan d = true.
Proof.
  intros Hm Ht. rewrite update_dependencies_lookup. unfold merge_entry.
  cbn [vadd vmul float_ValueType].
  destruct (deps !! k) as [e|]; [|by apply Hm].
  destruct (m !! k) as [a|] eqn:Ea; intros [= <-].
  - apply add_inf_or_nan; [by apply (Hm k)|by apply mul_inf_or_nan].
  - by apply mul_inf_or_nan.
Qed.

(** A finite value minus itself is [+0]; an infinity or a NaN minus itself
    is a NaN. *)
Lemma sub_diag_finite (a : float) :
  is_inf_or_nan a = false → sub a a = zero.
Proof.
  intros Ha. apply Prim2SF_inj. rewrite sub_spec.
  change (Prim2SF zero) with (S754_zero false).
  rewrite is_inf_or_nan_spec in Ha.
  destruct (Prim2SF a) as [[]|[]| |s m e]; try discriminate; try reflexivity.
  unfold SF64sub, SFsub. by rewrite Z.sub_diag.
Qed.

Lemma sub_diag_not_finite (a : float) :
  is_inf_or_nan a = true → is_nan (sub a a) = true.
Proof.
  rewrite is_inf_or_nan_spec, is_nan_spec, sub_spec.
  by destruct (Prim2SF a) as [[]|[]| |s m e].
Qed.

(** Zero times an infinity is a NaN; zero times a finite value is a zero. *)
Lemma zero_mul_infinity (b : float) :
  is_infinity b = true → is_nan (mul zero b) = true.
Proof.
  rewrite is_infinity_spec, is_nan_spec, mul_spec.
  change (Prim2SF zero) with (S754_zero false).
  by destruct (Prim2SF b) as [[]|[]| |s m e].
Qed.

Lemma zero_mul_finite (b : float) :
  is_inf_or_nan b = false → eqb (mul zero b) zero = true.
Proof.
  rewrite is_inf_or_nan_spec, eqb_spec, mul_spec.
  change (Prim2SF zero) with (S754_zero false).
  by destruct (Prim2SF b) as [[]|[]| |[] m e].
Qed.

(** Anything times a NaN is a NaN. *)
Lemma mul_nan (a b : float) : is_nan b = true → is_nan (mul a b) = true.
Proof.
  rewrite !is_nan_spec, mul_spec.
  by destruct (Prim2SF a) as [[]|[]| |], (Prim2SF b) as [[]|[]| |].
Qed.

Lemma fmap_scale_inf_or_nan (a : deps_map_t float) (s : float) k d :
  is_inf_or_nan s = true →
  ((λ c, c * s)%V <$> a) !! k = Some d → is_inf_or_nan d = true.
Proof.
  intros Hs. rewrite lookup_fmap. cbn [vmul float_ValueType].
  destruct (a !! k); intros [= <-]. by apply mul_inf_or_nan.
Qed.
End Binary64Facts.

(** ** Operations of binary64 that are exact *)
Section Binary64Exactness.
Import PrimFloat SpecFloat FloatOps FloatAxioms.
Local Open Scope Z_scope.

Lemma shr_fexp_canonical (m : positive) (e : Z) :
  canonical_mantissa prec emax m e = true →
  shr_fexp prec emax (Zpos m) e loc_Exact
  = ({| shr_m := Zpos m; shr_r := false; shr_s := false |}, e).
Proof.
  unfold canonical_mantissa. intros Hc%Z.eqb_eq.
  unfold shr_fexp. cbn [Zdigits2 shr_record_of_loc].
  rewrite Hc, Z.sub_diag. reflexivity.
Qed.

Lemma digits2_pos_xO (p : positive) :
  Zpos (digits2_pos p~0) = Zpos (digits2_pos p) + 1.
Proof. cbn [digits2_pos]. lia. Qed.

(** [1.0] and [-1.0] have the mantissa [2^52] and the exponent [-52]. *)
Lemma digits2_pos_shift52 (m : positive) :
  Zpos (digits2_pos (4503599627370496 * m)) = Zpos (digits2_pos m) + 52.
Proof.
  change (4503599627370496 * m)%positive with (Pos.iter xO m 52).
  simpl Pos.iter. rewrite !digits2_pos_xO. lia.
Qed.

Lemma shr_shift52 (m : positive) (e : Z) :
  shr {| shr_m := Zpos (4503599627370496 * m);
         shr_r := false; shr_s := false |} e 52
  = ({| shr_m := Zpos m; shr_r := false; shr_s := false |}, e + 52).
Proof. reflexivity. Qed.

Lemma round_shift52 (s : bool) (m : positive) (e : Z) :
  bounded prec emax m e = true →
  binary_round_aux prec emax s (Zpos (m * 4503599627370496)) (e + -52)
    loc_Exact
  = S754_finite s m e.
Proof.
  intros [Hc He]%andb_prop.
  rewrite Pos.mul_comm.
  unfold binary_round_aux.
  assert (H1 : shr_fexp prec emax (Zpos (4503599627370496 * m)) (e + -52)
                 loc_Exact
               = ({| shr_m := Zpos m; shr_r := false; shr_s := false |}, e)).
  { unfold shr_fexp. unfold Zdigits2. rewrite digits2_pos_shift52.
    replace (Zpos (digits2_pos m) + 52 + (e + -52))
      with (Zpos (digits2_pos m) + e) by lia.
    unfold canonical_mantissa in Hc. apply Z.eqb_eq in Hc. rewrite Hc.
    replace (e - (e + -52)) with 52 by lia.
    unfold shr_record_of_loc. rewrite shr_shift52. f_equal. lia. }
  rewrite H1. cbn [shr_m loc_of_shr_record round_nearest_even].
  rewrite (shr_fexp_canonical m e Hc). cbn [shr_m].
  by rewrite He.
Qed.

(** Multiplication by [1.0] or by [-1.0] only sets the sign. *)
Lemma SFmul_unit (t : bool) (x : spec_float) :
  SpecFloat.valid_binary prec emax x = true →
  SFmul prec emax x (S754_finite t 4503599627370496 (-52))
  = match x with
    | S754_zero s => S754_zero (xorb s t)
    | S754_infinity s => S754_infinity (xorb s t)
    | S754_nan => S754_nan
    | S754_finite s m e => S754_finite (xorb s t) m e
    end.
Proof.
  destruct x as [s|s| |s m e]; try reflexivity.
  intros Hv. cbn [SFmul]. by apply round_shift52.
Qed.

Lemma mul_minus_one (c : float) : mul c (-1)%float = opp c.
Proof.
  apply Prim2SF_inj. rewrite mul_spec, opp_spec.
  change (Prim2SF (-1)%float) with (S754_finite true 4503599627370496 (-52)).
  unfold SF64mul. rewrite SFmul_unit by apply Prim2SF_valid.
  destruct (Prim2SF c) as [[]|[]| |[] m e]; reflexivity.
Qed.

Lemma mul_one (c : float) : mul c 1%float = c.
Proof.
  apply Prim2SF_inj. rewrite mul_spec.
  change (Prim2SF 1%float) with (S754_finite false 4503599627370496 (-52)).
  unfold SF64mul. rewrite SFmul_unit by apply Prim2SF_valid.
  destruct (Prim2SF c) as [[]|[]| |[] m e]; reflexivity.
Qed.

(** A finite value plus its opposite is [+0]. *)
Lemma SFadd_opp (x : spec_float) :
  SFadd prec emax x (SFopp x)
  = match x with
    | S754_infinity _ | S754_nan => S754_nan
    | _ => S754_zero false
    end.
Proof.
  destruct x as [[]|[]| |s m e]; try reflexivity.
  cbn [SFopp SFadd]. rewrite Z.min_id.
  replace (cond_Zopp s (Z.pos (shl_align m e e).1) +
           cond_Zopp (negb s) (Z.pos (shl_align m e e).1)) with 0
    by (destruct s; cbn [cond_Zopp negb]; lia).
  reflexivity.
Qed.

Lemma add_opp_finite (c : float) :
  is_inf_or_nan c = false → add c (opp c) = zero.
Proof.
  intros Hc. apply Prim2SF_inj. rewrite add_spec, opp_spec.
  unfold SF64add. rewrite SFadd_opp.
  change (Prim2SF zero) with (S754_zero false).
  rewrite is_inf_or_nan_spec in Hc.
  by destruct (Prim2SF c) as [[]|[]| |[] m e].
Qed.

(** [0 * 0] times a finite value is a zero, and [+0] plus a zero is [+0]. *)
Lemma add_zero_sq_term (f : float) :
  is_inf_or_nan f = false → add zero (mul (mul zero zero) f) = zero.
Proof.
  intros Hf. apply Prim2SF_inj. rewrite add_spec, mul_spec.
  change (Prim2SF (mul zero zero)) with (S754_zero false).
  change (Prim2SF zero) with (S754_zero false).
  rewrite is_inf_or_nan_spec in Hf.
  by destruct (Prim2SF f) as [[]|[]| |[] m e].
Qed.

(** The sum of squares of a map whose coefficients are all [+0]. *)
Lemma sum_sq_zero (h : Heap float) (m : deps_map_t float) :
  (∀ k, is_Some (m !! k) →
        is_inf_or_nan (dep_std h k * dep_std h k)%float = false) →
  sum_sq h ((λ _, zero) <$> m) = zero.
Proof.
  intros Hm. unfold sum_sq.
  assert (Hl : Forall (λ kd : ind_var_ptr * float,
                  kd.2 = zero ∧
                  is_inf_or_nan (dep_std h kd.1 * dep_std h kd.1)%float
                  = false)
                 (begin_end ((λ _ : float, zero) <$> m))).
  { apply Forall_forall. intros [k d] Hin. cbn [fst snd].
    apply elem_of_begin_end in Hin. rewrite lookup_fmap in Hin.
    destruct (m !! k) as [c|] eqn:Ek; [|done]. injection Hin as <-.
    split; [done|]. apply Hm. by rewrite Ek. }
  cbn [v0 float_ValueType].
  induction Hl as [|[k d] l [Hd Hk] _ IH]; [done|].
  cbn [foldl fst snd] in *. subst d.
  cbn [vadd vmul float_ValueType]. by rewrite add_zero_sq_term.
Qed.
End Binary64Exactness.

(** ** Equality and division by zero on [UDouble] *)
Section Binary64Claims.
Import PrimFloat.

(** C8, as the claim states it, fails on a NaN: the value
    [Uncertain(NaN, 1)] is not equal to itself, since [NaN != NaN] makes the
    first test of [operator==] return false. *)
Lemma nan_mean_is_not_equal_to_itself :
  let '(x, _) := Uncertain_new ([] : Heap float) nan one in
  UncertainHpp.operator_eq x x = false ∧ UncertainHpp.operator_ne x x = true.
Proof. vm_compute. done. Qed.

(** C8 (amended): [operator==] holds exactly when the means compare equal,
    the standard deviations compare equal and the two maps hold the same
    keys with coefficients that compare equal, all by the exact [==] of the
    numeric type; it is symmetric; [operator!=] is its negation; and it is
    reflexive on the values that hold no NaN. *)
Theorem equality_is_structural :
  (∀ x y : Uncertain float,
     UncertainHpp.operator_eq x y = true ↔
     (mean x =? mean y)%float = true ∧ (std x =? std y)%float = true ∧
     ∀ k, match deps x !! k, deps y !! k with
          | Some c, Some d => (c =? d)%float = true
          | None, None => True
          | _, _ => False
          end) ∧
  (∀ x y : Uncertain float,
     UncertainHpp.operator_eq x y = UncertainHpp.operator_eq y x) ∧
  (∀ x y : Uncertain float,
     UncertainHpp.operator_ne x y = negb (UncertainHpp.operator_eq x y)) ∧
  (∀ x : Uncertain float, nan_free x → UncertainHpp.operator_eq x x = true).
Proof.
  split_and!.
  - intros x y. exact (operator_eq_spec x y).
  - intros x y. apply operator_eq_sym, float_eqb_sym.
  - done.
  - intros x (Hm & Hs & Hd). unfold is_nan in *.
    apply operator_eq_refl; cbn [veqb float_ValueType].
    + by apply negb_false_iff.
    + by apply negb_false_iff.
    + intros k d Hk. apply negb_false_iff. by apply (Hd k).
Qed.

(** C9: the division operators are total functions, with no error result.
    When the divisor has mean zero (either zero), and [std::pow] of that
    zero and 2.0 is a zero as the C standard prescribes, the quotient has an
    infinite or NaN mean and every coefficient of its dependency map is
    infinite or NaN; so for [x / y] of division.cpp and of part_002, for
    [x /= y] whether or not both operands name one object, and for a plain
    number divided by [y]. *)
Theorem division_by_zero_mean_is_silent
    (std_pow : float → float → float) (h : Heap float)
    (x : Uncertain float) (r : rhs_ref float) (v : float) :
  let y := deref x r in
  (mean y =? zero)%float = true →
  (std_pow (mean y) v2 =? zero)%float = true →
  ∀ c : Uncertain float,
    (∃ any_mean any_std,
       c = DivisionCpp.operator_div std_pow any_mean any_std h x y) ∨
    c = OperationsIpp.operator_div std_pow h x y ∨
    c = OperationsIpp.operator_div_assign std_pow h x r ∨
    c = DivisionCpp.operator_double_div std_pow h v y ∨
    c = OperationsIpp.operator_double_div std_pow h v y →
    is_inf_or_nan (mean c) = true ∧
    ∀ k d, deps c !! k = Some d → is_inf_or_nan d = true.
Proof.
  intros y Hy Hpow.
  assert (Hassign : ∀ r', mean (deref x r') = mean y →
    ∀ c, c = OperationsIpp.operator_div_assign std_pow h x r' →
    is_inf_or_nan (mean c) = true ∧
    ∀ k d, deps c !! k = Some d → is_inf_or_nan d = true).
  { intros r' Hr' c ->.
    unfold OperationsIpp.operator_div_assign, update_derivatives_deps,
      update_derivatives, calculate_std, set_deps, update_mean.
    unfold mean, deps in *. cbn [m_mean_ m_deps_]. rewrite Hr'.
    cbn [vdiv vopp v1 float_ValueType].
    split; [by apply div_by_zero|].
    intros k d. apply update_dependencies_inf_or_nan; [|by apply div_by_zero].
    intros k' a. rewrite scale_each_fmap.
    apply fmap_scale_inf_or_nan. by apply div_by_zero. }
  assert (Hnum : ∀ c, c = DivisionCpp.operator_double_div std_pow h v y →
    is_inf_or_nan (mean c) = true ∧
    ∀ k d, deps c !! k = Some d → is_inf_or_nan d = true).
  { intros c ->. rewrite operator_double_div_unfold. cbv zeta.
    unfold mean, deps in *. cbn [m_mean_ m_deps_].
    cbn [vdiv vopp float_ValueType].
    split; [by apply div_by_zero|].
    intros k d. apply fmap_scale_inf_or_nan. by apply div_by_zero. }
  intros c [(any_mean & any_std & ->)|[->|[->|[->| ->]]]].
  - apply (Hassign (other_object y)); [done|]. apply operator_div_cpp.
  - by apply (Hassign (other_object y)).
  - by apply (Hassign r).
  - by apply Hnum.
  - by apply Hnum.
Qed.
End Binary64Claims.

(** ** Subtraction and the power, in exact arithmetic and on [UDouble] *)
Section ExactAndBinary64Claims.
Import PrimFloat.
Local Open Scope R_scope.

(** The mean of [x - x] on binary64, by the operator of part_002 and by the
    one of subtraction.cpp: [+0] for a finite mean, a NaN for an infinite or
    NaN mean. *)
Lemma self_difference_mean_binary64 (h : Heap float) (x : Uncertain float)
    (any_mean any_std : float) :
  let c := OperationsIpp.operator_sub h x x in
  let c' := SubtractionCpp.operator_sub any_mean any_std h x x in
  (is_inf_or_nan (mean x) = false → mean c = zero ∧ mean c' = zero) ∧
  (is_inf_or_nan (mean x) = true →
   is_nan (mean c) = true ∧ is_nan (mean c') = true).
Proof.
  intros c c'. subst c c'.
  rewrite operator_sub_unfold, operator_sub_cpp_unfold.
  unfold mean. cbn [m_mean_ vsub float_ValueType].
  split; intros Hx.
  - by rewrite sub_diag_finite.
  - by rewrite sub_diag_not_finite.
Qed.

(** The coefficients and the standard deviation of [x - x] on binary64: when
    the coefficients of [x] are finite every one of them cancels to [+0],
    and when the squares of the independent standard deviations are finite
    too, the standard deviation is [+0]. *)
Lemma self_difference_std_binary64 (h : Heap float) (x : Uncertain float)
    (any_mean any_std : float) :
  (∀ k d, deps x !! k = Some d → is_inf_or_nan d = false) →
  (∀ k, is_Some (deps x !! k) →
        is_inf_or_nan (dep_std h k * dep_std h k)%float = false) →
  let c := OperationsIpp.operator_sub h x x in
  let c' := SubtractionCpp.operator_sub any_mean any_std h x x in
  (deps c = (λ _, zero) <$> deps x ∧ std c = zero) ∧
  (deps c' = (λ _, zero) <$> deps x ∧ std c' = zero).
Proof.
  intros Hd Hs c c'. subst c c'.
  rewrite operator_sub_unfold, operator_sub_cpp_unfold. cbv zeta.
  assert (H1 : union_with (λ c d : float, Some (c + d)%V) (deps x)
                 ((λ d : float, (d * - v1)%V) <$> deps x)
               = (λ _, zero) <$> deps x).
  { apply map_eq; intros k. rewrite lookup_union_with, !lookup_fmap.
    destruct (deps x !! k) as [d|] eqn:Ek; [|done]. cbn.
    f_equal. change (- v1)%V with (-1)%float.
    rewrite mul_minus_one. apply add_opp_finite. by apply (Hd k). }
  assert (H2 : merge_scaled (deps x) v1 (deps x) (- v1)%V
               = (λ _, zero) <$> deps x).
  { apply map_eq; intros k. rewrite merge_scaled_lookup, lookup_fmap.
    destruct (deps x !! k) as [d|] eqn:Ek; [|done]. cbn.
    f_equal. change (- v1)%V with (-1)%float. change v1 with 1%float.
    rewrite mul_minus_one, mul_one. apply add_opp_finite. by apply (Hd k). }
  rewrite H1, H2. unfold deps at 1 3, std. cbn [m_deps_ m_std_].
  rewrite sum_sq_zero by done. done.
Qed.

(** C4, as the claim states it, fails in two places.  For [sigma = 0] two
    values constructed independently from (1, 0) have a difference of
    standard deviation 0, not a positive one.  And on binary64 the quotient
    [x = Uncertain(0, 1) / Uncertain(0, 1)] has a NaN mean, and so has
    [x - x]: its mean is not 0. *)
Lemma difference_of_exact_values_and_of_a_nan_mean :
  (let '(x, h1) := Uncertain_new ([] : Heap R) 1 0 in
   let '(y, h2) := Uncertain_new h1 1 0 in
   ¬ (0 < std (OperationsIpp.operator_sub h2 x y)) ∧
   ¬ (0 < std (SubtractionCpp.operator_sub 0 0 h2 x y))) ∧
  (let '(a, h) := Uncertain_new ([] : Heap float) 0%float 1%float in
   let x := DivisionCpp.operator_div pow_of_exact_square 0%float 0%float
              h a a in
   is_nan (mean x) = true ∧
   (mean (OperationsIpp.operator_sub h x x) =? zero)%float = false ∧
   (mean (SubtractionCpp.operator_sub 0%float 0%float h x x) =? zero)%float
     = false).
Proof.
  split; [exact independent_difference_of_exact_values|].
  vm_compute. done.
Qed.

(** C4 (amended): in exact arithmetic [x - x] has mean 0 and standard
    deviation 0, by the operator of part_002 and by the one of
    subtraction.cpp, and for [x] and [y] constructed independently from the
    same mean and the same standard deviation [sigma > 0], [x] and [y] have
    equal mean and standard deviation and [x - y] has standard deviation
    [sqrt(2) * sigma], which is positive.  On binary64 the mean of [x - x]
    is 0 when the mean of [x] is finite, and a NaN when it is an infinity or
    a NaN; its standard deviation is 0 when the coefficients of [x] and the
    squares of the standard deviations of its independent variables are
    finite. *)
Theorem correlation_aware_subtraction :
  (∀ (h : Heap R) (x : Uncertain R),
     let c := OperationsIpp.operator_sub h x x in
     mean c = 0 ∧ std c = 0) ∧
  (∀ (h : Heap R) (x : Uncertain R) (any_mean any_std : R),
     let c := SubtractionCpp.operator_sub any_mean any_std h x x in
     mean c = 0 ∧ std c = 0) ∧
  (∀ (h : Heap R) (mu sigma : R),
     0 < sigma →
     let '(x, h1) := Uncertain_new h mu sigma in
     let '(y, h2) := Uncertain_new h1 mu sigma in
     mean x = mean y ∧ std x = std y ∧ deps x ≠ deps y ∧
     (let c := OperationsIpp.operator_sub h2 x y in
      std c = R_sqrt.sqrt 2 * sigma ∧ 0 < std c) ∧
     (∀ any_mean any_std,
        let c := SubtractionCpp.operator_sub any_mean any_std h2 x y in
        std c = R_sqrt.sqrt 2 * sigma ∧ 0 < std c)) ∧
  (∀ (h : Heap float) (x : Uncertain float) (any_mean any_std : float),
     let c := OperationsIpp.operator_sub h x x in
     let c' := SubtractionCpp.operator_sub any_mean any_std h x x in
     (is_inf_or_nan (mean x) = false → mean c = zero ∧ mean c' = zero) ∧
     (is_inf_or_nan (mean x) = true →
      is_nan (mean c) = true ∧ is_nan (mean c') = true) ∧
     ((∀ k d, deps x !! k = Some d → is_inf_or_nan d = false) →
      (∀ k, is_Some (deps x !! k) →
            is_inf_or_nan (dep_std h k * dep_std h k)%float = false) →
      std c = zero ∧ std c' = zero)).
Proof.
  destruct difference_in_exact_arithmetic as (Hself & Hself' & Hind).
  split_and!; [exact Hself|exact Hself'|exact Hind|].
  intros h x any_mean any_std c c'.
  destruct (self_difference_mean_binary64 h x any_mean any_std)
    as [Hfin Hnan].
  split_and!; [exact Hfin|exact Hnan|].
  intros Hd Hs.
  destruct (self_difference_std_binary64 h x any_mean any_std Hd Hs)
    as [[_ Hc] [_ Hc']].
  by split.
Qed.

(** [x.pow(0u)] on binary64: [exp - 1] is evaluated in [unsigned int] and
    wraps to 4294967295; when [std::pow] overflows there, the scale factor
    is [0 * inf], a NaN, and so is every coefficient of the result. *)
Lemma pow_unsigned_zero (std_pow : float → float → float)
    (h : Heap float) (x : Uncertain float) k d :
  is_infinity (std_pow (mean x) 4294967295%float) = true →
  deps (UncertainHpp.pow std_pow h x (UInt 0)) !! k = Some d →
  is_nan d = true.
Proof.
  intros Hinf. rewrite pow_numeric_unfold. cbv zeta. unfold deps.
  cbn [m_deps_]. rewrite lookup_fmap.
  destruct (m_deps_ x !! k) as [c|]; [|done]. intros [= <-].
  cbn [vmul float_ValueType]. apply mul_nan.
  change (to_value (UInt 0)) with zero.
  change (to_value (sub_one (UInt 0))) with 4294967295%float.
  by apply zero_mul_infinity.
Qed.

(** C7: for every numeric type, [x.pow(p)] has the mean
    [std::pow(mean(x), p)], every coefficient of [x] scaled by
    [p * std::pow(mean(x), q)], where [q] is [p - 1] as the type of [p]
    evaluates it, and the standard deviation derived from the new map (over
    the reals, the spec's formula).  For a [double], an [int] and an
    [unsigned] of at least 1, [q] is [p - 1], the factor of the chain rule,
    and [Uncertain(4, 0.2).pow(2)] has mean 16 and standard deviation 1.6.
    For the [unsigned] 0 the subtraction wraps: [q] is 4294967295, and on
    binary64, where [std::pow] overflows to an infinity there, every
    coefficient of [x.pow(0u)] is a NaN, while the factor of the chain rule,
    [0 * std::pow(mean(x), -1)], is a zero. *)
Theorem pow_spec :
  (∀ (T : Type) (VT : ValueType T) (N : Type) (NT : NumericType N T)
     (std_pow : T → T → T) (h : Heap T) (x : Uncertain T) (p : N),
     let c := UncertainHpp.pow std_pow h x p in
     mean c = std_pow (mean x) (to_value p) ∧
     deps c = (λ d, d * (to_value p *
                         std_pow (mean x) (to_value (sub_one p))))%V
                <$> deps x ∧
     std c = vsqrt (sum_sq h (deps c))) ∧
  (∀ (N : Type) (NT : NumericType N R) (std_pow : R → R → R)
     (h : Heap R) (x : Uncertain R) (p : N),
     let c := UncertainHpp.pow std_pow h x p in
     mean c = std_pow (mean x) (to_value p) ∧
     deps c = (λ d, d * (to_value p * std_pow (mean x) (to_value (sub_one p))))
                <$> deps x ∧
     std c = spec_std h (deps c)) ∧
  ((∀ p : R, to_value (sub_one p) = p - 1) ∧
   (∀ p : c_int, to_value (sub_one p) = (to_value p - 1 : R)) ∧
   (∀ p : c_unsigned,
      (1 <= uint_val p < 2 ^ 32)%Z →
      to_value (sub_one p) = (to_value p - 1 : R))) ∧
  (∀ (std_pow : R → R → R) (h : Heap R),
     std_pow 4 2 = 16 → std_pow 4 1 = 4 →
     let '(x, h') := Uncertain_new h 4 0.2 in
     let c := UncertainHpp.pow std_pow h' x (Int 2) in
     mean c = 16 ∧ std c = 1.6) ∧
  ((to_value (sub_one (UInt 0)) : R) = 4294967295 ∧
   (to_value (sub_one (UInt 0)) : float) = 4294967295%float ∧
   ∀ (std_pow : float → float → float) (h : Heap float) (x : Uncertain float),
     is_infinity (std_pow (mean x) 4294967295%float) = true →
     is_inf_or_nan (std_pow (mean x) (-1)%float) = false →
     let c := UncertainHpp.pow std_pow h x (UInt 0) in
     (∀ k d, deps c !! k = Some d → is_nan d = true) ∧
     (zero * std_pow (mean x) (-1) =? zero)%float = true).
Proof.
  split_and!.
  - intros T VT N NT std_pow h x p c. subst c.
    by rewrite pow_numeric_unfold.
  - intros N NT std_pow h x p. apply pow_numeric_real.
  - reflexivity.
  - apply int_sub_one_real.
  - apply unsigned_sub_one_no_wrap.
  - apply pow_of_4.
  - reflexivity.
  - reflexivity.
  - intros std_pow h x Hinf Hfin c. split.
    + intros k d. by apply pow_unsigned_zero.
    + by apply zero_mul_finite.
Qed.

(** [x * x] and [x.pow(2)] on binary64: the means and the coefficients as
    the code computes them; the two compare equal only if [std::pow] returns
    the rounded product of the mean with itself. *)
Lemma self_product_and_square_binary64 (std_pow : float → float → float)
    (h : Heap float) (x : Uncertain float) :
  let c := OperationsIpp.operator_mul h x x in
  let p := UncertainHpp.pow std_pow h x (Int 2) in
  (mean c = (mean x * mean x)%float ∧
   deps c = (λ d, d * mean x + d * mean x)%float <$> deps x) ∧
  (mean p = std_pow (mean x) 2%float ∧
   deps p = (λ d, d * (2 * std_pow (mean x) 1))%float <$> deps x) ∧
  (UncertainHpp.operator_eq c p = true →
   (std_pow (mean x) 2 =? mean x * mean x)%float = true).
Proof.
  intros c p.
  assert (Hc : c = {| m_mean_ := (mean x * mean x)%float;
                      m_std_ :=
                        sqrt (sum_sq h ((λ d, d * mean x + d * mean x)%float
                                          <$> deps x));
                      m_deps_ := (λ d, d * mean x + d * mean x)%float
                                   <$> deps x |}).
  { subst c. rewrite operator_mul_unfold.
    assert (Hm : merge_scaled (deps x) (mean x) (deps x) (mean x)
                 = (λ d, d * mean x + d * mean x)%float <$> deps x).
    { apply map_eq; intros k. rewrite merge_scaled_lookup, lookup_fmap.
      by destruct (deps x !! k). }
    by rewrite Hm. }
  assert (Hp : p = {| m_mean_ := std_pow (mean x) 2%float;
                      m_std_ :=
                        sqrt (sum_sq h
                                ((λ d, d * (2 * std_pow (mean x) 1))%float
                                   <$> deps x));
                      m_deps_ := (λ d, d * (2 * std_pow (mean x) 1))%float
                                   <$> deps x |}).
  { subst p. rewrite pow_numeric_unfold. reflexivity. }
  split_and!.
  - by rewrite Hc.
  - by rewrite Hc.
  - by rewrite Hp.
  - by rewrite Hp.
  - intros [Hm _]%operator_eq_spec. rewrite Hc, Hp in Hm.
    unfold mean at 1 4 in Hm. cbn [m_mean_] in Hm.
    rewrite float_eqb_sym in Hm. exact Hm.
Qed.

(** C10, as the claim states it, fails on binary64: for
    [x = Uncertain(2.759, 0.5)] the mean of [x * x] is the rounded product
    7.6120809999999999 and the mean of [x.pow(2)] is what [std::pow] returns,
    7.612080999999999; the two values are not equal. *)
Lemma self_product_differs_from_pow_at_2_759 :
  let '(x, h) :=
    Uncertain_new ([] : Heap float) 0x1.6126e978d4fdfp+1%float 0.5%float in
  let c := OperationsIpp.operator_mul h x x in
  let p := UncertainHpp.pow pow_of_2_759 h x (Int 2) in
  mean c = 0x1.e72c55c96030cp+2%float ∧
  mean p = 0x1.e72c55c96030bp+2%float ∧
  (mean c =? mean p)%float = false ∧
  UncertainHpp.operator_eq c p = false.
Proof. vm_compute. done. Qed.

(** C10 (amended): [x * x] has the mean [mean(x) * mean(x)] and the
    coefficients [d * mean(x) + d * mean(x)], which is [2 * mean(x) * d] in
    exact arithmetic; [x.pow(2)] has the mean [std::pow(mean(x), 2)] and the
    coefficients [d * (2 * std::pow(mean(x), 1))].  In exact arithmetic the
    two are the same value (the same mean, standard deviation and dependency
    map) when [std::pow] returns the square and the base there, and only
    when it returns the square; on binary64 they compare equal only if
    [std::pow] returns the rounded product. *)
Theorem self_product_is_square :
  (∀ (std_pow : R → R → R) (h : Heap R) (x : Uncertain R),
     let c := OperationsIpp.operator_mul h x x in
     let p := UncertainHpp.pow std_pow h x (Int 2) in
     (mean c = mean x * mean x ∧
      deps c = (λ d, 2 * mean x * d) <$> deps x) ∧
     (mean p = std_pow (mean x) 2 ∧
      deps p = (λ d, d * (2 * std_pow (mean x) 1)) <$> deps x) ∧
     (std_pow (mean x) 2 = mean x * mean x → std_pow (mean x) 1 = mean x →
      c = p ∧ mean c = mean p ∧ std c = std p ∧ deps c = deps p) ∧
     (c = p → std_pow (mean x) 2 = mean x * mean x)) ∧
  (∀ (std_pow : float → float → float) (h : Heap float) (x : Uncertain float),
     let c := OperationsIpp.operator_mul h x x in
     let p := UncertainHpp.pow std_pow h x (Int 2) in
     (mean c = (mean x * mean x)%float ∧
      deps c = (λ d, d * mean x + d * mean x)%float <$> deps x) ∧
     (mean p = std_pow (mean x) 2%float ∧
      deps p = (λ d, d * (2 * std_pow (mean x) 1))%float <$> deps x) ∧
     (UncertainHpp.operator_eq c p = true →
      (std_pow (mean x) 2 =? mean x * mean x)%float = true)).
Proof.
  split.
  - apply self_product_and_square.
  - apply self_product_and_square_binary64.
Qed.
End ExactAndBinary64Claims.

(** ** The theorems at concrete values *)
Section RealInstances.
Local Open Scope R_scope.

(** The product of [Uncertain(2, 0.1)] and [Uncertain(3, 0.2)] is a built
    value, and carries the derived standard deviation. *)
Lemma std_is_root_sum_of_squares_product :
  let '(x, h1) := Uncertain_new ([] : Heap R) 2 0.1 in
  let '(y, h2) := Uncertain_new h1 3 0.2 in
  let c := OperationsIpp.operator_mul h2 x y in
  built Rstd_pow h2 c ∧
  std c = spec_std h2 (deps c) ∧ calculate_std h2 c = c.
Proof.
  cbv beta iota zeta delta [Uncertain_new make_shared].
  match goal with
  | |- built ?p ?h ?c ∧ _ =>
      assert (Hb : built p h c);
      [| split; [exact Hb | exact (std_is_root_sum_of_squares p h c Hb)]]
  end.
  apply built_mul.
  - exact (built_alloc Rstd_pow _ _ {| iv_std := 0.2 |}
             (built_new Rstd_pow [] 2 0.1)).
  - exact (built_new Rstd_pow ([] ++ [{| iv_std := 0.1 |}]) 3 0.2).
Defined.

(** [Uncertain(2, 0.1)] on an empty heap. *)
Lemma Uncertain_new_spec_at_2 :
  0 <= 0.1 ∧
  let '(u, h') := Uncertain_new ([] : Heap R) 2 0.1 in
  mean u = 2 ∧ std u = 0.1 ∧
  ∃ p : ind_var_ptr,
    deps u = {[ p := 1 ]} ∧ size (deps u) = 1%nat ∧
    ([] : Heap R) !! p = None ∧ h' !! p = Some {| iv_std := 0.1 |} ∧
    ∀ q v, ([] : Heap R) !! q = Some v → h' !! q = Some v.
Proof.
  assert (Hs : 0 <= 0.1) by lra.
  split; [exact Hs | exact (Uncertain_new_spec [] 2 0.1 Hs)].
Defined.


End RealInstances.

Section Binary64Instances.
Import PrimFloat.

(** [Uncertain(2, 0.5)] holds no NaN and is equal to itself. *)
Lemma equality_is_structural_at_2 :
  let x := (Uncertain_new ([] : Heap float) 2%float 0.5%float).1 in
  nan_free x ∧ UncertainHpp.operator_eq x x = true.
Proof.
  intros x.
  assert (Hx : nan_free x).
  { split; [reflexivity|]. split; [reflexivity|].
    intros k d Hk.
    change (deps x) with ({[ 0%nat := one ]} : deps_map_t float) in Hk.
    apply lookup_singleton_Some in Hk as [_ <-]. reflexivity. }
  split; [exact Hx|].
  exact (proj2 (proj2 (proj2 equality_is_structural)) x Hx).
Defined.

(** [Uncertain(1, 0.5) / Uncertain(0, 0.25)], with [std::pow(b, 2.0)]
    computed as [b * b]: the mean is infinite, and so are the
    coefficients. *)
Lemma division_by_zero_mean_is_silent_at_0 :
  let std_pow := λ b _ : float, (b * b)%float in
  let x := (Uncertain_new ([] : Heap float) 1%float 0.5%float).1 in
  let h1 := (Uncertain_new ([] : Heap float) 1%float 0.5%float).2 in
  let y := (Uncertain_new h1 0%float 0.25%float).1 in
  let h2 := (Uncertain_new h1 0%float 0.25%float).2 in
  let c := DivisionCpp.operator_div std_pow 0%float 0%float h2 x y in
  (mean y =? zero)%float = true ∧
  (std_pow (mean y) v2 =? zero)%float = true ∧
  is_inf_or_nan (mean c) = true ∧
  (∀ k d, deps c !! k = Some d → is_inf_or_nan d = true) ∧
  mean c = infinity.
Proof.
  intros std_pow x h1 y h2 c.
  assert (Hy : (mean y =? zero)%float = true) by reflexivity.
  assert (Hpow : (std_pow (mean y) v2 =? zero)%float = true) by reflexivity.
  split; [exact Hy|]. split; [exact Hpow|].
  pose proof (division_by_zero_mean_is_silent std_pow h2 x (other_object y)
                1%float Hy Hpow c
                (or_introl (ex_intro _ 0%float (ex_intro _ 0%float eq_refl))))
    as [Hm Hd].
  split; [exact Hm|]. split; [exact Hd|]. reflexivity.
Defined.

(** A compound assignment whose operands name one object reads, through its
    right operand, the map it has just scaled: for [x = Uncertain(3, 1)],
    [x *= x] leaves the coefficient [1*3 + (1*3)*3 = 12], where the binary
    [x * x], which works on a copy, gives [1*3 + 1*3 = 6]. *)
Example self_assignment_reads_the_scaled_map :
  let x := (Uncertain_new ([] : Heap float) 3%float 1%float).1 in
  let h := (Uncertain_new ([] : Heap float) 3%float 1%float).2 in
  deps (OperationsIpp.operator_mul_assign h x same_object) !! 0%nat
    = Some 12%float ∧
  deps (OperationsIpp.operator_mul h x x) !! 0%nat = Some 6%float.
Proof. vm_compute. done. Qed.
End Binary64Instances.

Section ExactAndBinary64Instances.
Import PrimFloat.
Local Open Scope R_scope.

(** Two independent [Uncertain(1, 0.5)]: their difference has standard
    deviation [sqrt(2) * 0.5].  On binary64, [Uncertain(2, 0.5)] minus itself
    has mean 0, and a value of infinite mean minus itself a NaN mean. *)
Lemma correlation_aware_subtraction_at_half :
  (0 < 0.5 ∧
   let '(x, h1) := Uncertain_new ([] : Heap R) 1 0.5 in
   let '(y, h2) := Uncertain_new h1 1 0.5 in
   let c := OperationsIpp.operator_sub h2 x y in
   std c = R_sqrt.sqrt 2 * 0.5 ∧ 0 < std c) ∧
  (let x := (Uncertain_new ([] : Heap float) 2%float 0.5%float).1 in
   let h := (Uncertain_new ([] : Heap float) 2%float 0.5%float).2 in
   is_inf_or_nan (mean x) = false ∧
   (∀ k d, deps x !! k = Some d → is_inf_or_nan d = false) ∧
   (∀ k, is_Some (deps x !! k) →
         is_inf_or_nan (dep_std h k * dep_std h k)%float = false) ∧
   mean (OperationsIpp.operator_sub h x x) = zero ∧
   std (OperationsIpp.operator_sub h x x) = zero) ∧
  (let x :=
     (Uncertain_new ([] : Heap float) infinity 0.5%float).1 in
   let h :=
     (Uncertain_new ([] : Heap float) infinity 0.5%float).2 in
   is_inf_or_nan (mean x) = true ∧
   is_nan (mean (OperationsIpp.operator_sub h x x)) = true).
Proof.
  destruct correlation_aware_subtraction as (_ & _ & Hind & Hbin).
  split; [|split].
  - assert (Hs : 0 < 0.5) by lra.
    split; [exact Hs|].
    pose proof (Hind [] 1 0.5 Hs) as Hc.
    destruct (Uncertain_new ([] : Heap R) 1 0.5) as [x h1].
    destruct (Uncertain_new h1 1 0.5) as [y h2].
    exact (proj1 (proj2 (proj2 (proj2 Hc)))).
  - intros x h.
    assert (Hx : is_inf_or_nan (mean x) = false) by reflexivity.
    assert (Hd : ∀ k d, deps x !! k = Some d → is_inf_or_nan d = false).
    { intros k d Hk.
      change (deps x) with ({[ 0%nat := one ]} : deps_map_t float) in Hk.
      apply lookup_singleton_Some in Hk as [_ <-]. reflexivity. }
    assert (Hs : ∀ k, is_Some (deps x !! k) →
                      is_inf_or_nan (dep_std h k * dep_std h k)%float = false).
    { intros k [d Hk].
      change (deps x) with ({[ 0%nat := one ]} : deps_map_t float) in Hk.
      apply lookup_singleton_Some in Hk as [<- _]. reflexivity. }
    split; [exact Hx|]. split; [exact Hd|]. split; [exact Hs|].
    destruct (Hbin h x zero zero) as (Hfin & _ & Hstd).
    split; [exact (proj1 (Hfin Hx))|exact (proj1 (Hstd Hd Hs))].
  - intros x h.
    assert (Hx : is_inf_or_nan (mean x) = true) by reflexivity.
    split; [exact Hx|].
    exact (proj1 (proj1 (proj2 (Hbin h x zero zero)) Hx)).
Defined.

(** [Uncertain(4, 0.2).pow(2)] in exact arithmetic; the [unsigned] exponent
    7; and [Uncertain(4, 0.25).pow(0u)] on binary64, where [4^4294967295]
    overflows. *)
Lemma pow_spec_at_4 :
  (Rstd_pow 4 2 = 16 ∧ Rstd_pow 4 1 = 4 ∧
   let '(x, h') := Uncertain_new ([] : Heap R) 4 0.2 in
   let c := UncertainHpp.pow Rstd_pow h' x (Int 2) in
   mean c = 16 ∧ std c = 1.6) ∧
  ((1 <= uint_val (UInt 7) < 2 ^ 32)%Z ∧
   to_value (sub_one (UInt 7)) = (to_value (UInt 7) - 1 : R)) ∧
  (let x := (Uncertain_new ([] : Heap float) 4%float 0.25%float).1 in
   let h := (Uncertain_new ([] : Heap float) 4%float 0.25%float).2 in
   let c := UncertainHpp.pow pow_of_power_of_two h x (UInt 0) in
   is_infinity (pow_of_power_of_two (mean x) 4294967295%float)
     = true ∧
   is_inf_or_nan (pow_of_power_of_two (mean x) (-1)%float) = false ∧
   (∀ k d, deps c !! k = Some d → is_nan d = true) ∧
   deps c !! 0%nat = Some nan).
Proof.
  destruct pow_spec as (_ & _ & (_ & _ & Hu) & Hex & (_ & _ & Hbug)).
  split; [|split].
  - assert (H2 : Rstd_pow 4 2 = 16) by (rewrite Rstd_pow_2; lra).
    assert (H1 : Rstd_pow 4 1 = 4) by apply Rstd_pow_1.
    split; [exact H2|]. split; [exact H1|].
    exact (Hex Rstd_pow [] H2 H1).
  - assert (H7 : (1 <= uint_val (UInt 7) < 2 ^ 32)%Z) by (cbn; lia).
    split; [exact H7|exact (Hu (UInt 7) H7)].
  - intros x h c.
    assert (Hinf : is_infinity
                     (pow_of_power_of_two (mean x) 4294967295%float) = true)
      by reflexivity.
    assert (Hfin : is_inf_or_nan (pow_of_power_of_two (mean x) (-1)%float)
                   = false) by reflexivity.
    split; [exact Hinf|]. split; [exact Hfin|].
    split; [exact (proj1 (Hbug pow_of_power_of_two h x Hinf Hfin))|].
    reflexivity.
Defined.

(** [x * x] and [x.pow(2)] for [x = Uncertain(2, 0.5)]: the same value in
    exact arithmetic, and on binary64, where the square of 2 is exact. *)
Lemma self_product_is_square_at_2 :
  (let x := (Uncertain_new ([] : Heap R) 2 0.5).1 in
   let h := (Uncertain_new ([] : Heap R) 2 0.5).2 in
   Rstd_pow (mean x) 2 = mean x * mean x ∧ Rstd_pow (mean x) 1 = mean x ∧
   OperationsIpp.operator_mul h x x = UncertainHpp.pow Rstd_pow h x (Int 2)) ∧
  (let x := (Uncertain_new ([] : Heap float) 2%float 0.5%float).1 in
   let h := (Uncertain_new ([] : Heap float) 2%float 0.5%float).2 in
   UncertainHpp.operator_eq (OperationsIpp.operator_mul h x x)
     (UncertainHpp.pow pow_of_exact_square h x (Int 2)) = true ∧
   (pow_of_exact_square (mean x) 2 =? mean x * mean x)%float = true).
Proof.
  destruct self_product_is_square as [Hreal Hbin].
  split.
  - intros x h.
    assert (H2 : Rstd_pow (mean x) 2 = mean x * mean x) by apply Rstd_pow_2.
    assert (H1 : Rstd_pow (mean x) 1 = mean x) by apply Rstd_pow_1.
    split; [exact H2|]. split; [exact H1|].
    exact (proj1 (proj1 (proj2 (proj2 (Hreal Rstd_pow h x))) H2 H1)).
  - intros x h.
    assert (Heq : UncertainHpp.operator_eq (OperationsIpp.operator_mul h x x)
                    (UncertainHpp.pow pow_of_exact_square h x (Int 2)) = true)
      by reflexivity.
    split; [exact Heq|].
    exact (proj2 (proj2 (Hbin pow_of_exact_square h x)) Heq).
Defined.
End ExactAndBinary64Instances.

(** * Further properties of the operators *)

(** ** What the remaining operators return, for every numeric type *)
Section MoreOperatorFacts.
Context {T : Type} `{ValueType T}.
Local Open Scope val_scope.
Variable std_pow : T → T → T.
Implicit Types (m : deps_map_t T) (h : Heap T) (u x y : Uncertain T).

(** Two values with the same mean and the same map, both carrying the
    standard deviation derived from the map, are the same value. *)
Lemma derived_eq h (a b : T) m1 m2 :
  a = b → m1 = m2 →
  {| m_mean_ := a; m_std_ := vsqrt (sum_sq h m1); m_deps_ := m1 |}
  = {| m_mean_ := b; m_std_ := vsqrt (sum_sq h m2); m_deps_ := m2 |}.
Proof. by intros -> ->. Qed.

(** The negation, part_002. *)
Lemma operator_neg_unfold h u :
  OperationsIpp.operator_neg h u =
  {| m_mean_ := - mean u;
     m_std_ := vsqrt (sum_sq h ((λ c, c * - v1) <$> deps u));
     m_deps_ := (λ c, c * - v1) <$> deps u |}.
Proof.
  unfold OperationsIpp.operator_neg, update_derivatives, calculate_std,
    set_deps, update_mean, mean, deps; cbn.
  by rewrite scale_each_fmap.
Qed.

(** The sum, part_002. *)
Lemma operator_add_unfold h x y :
  OperationsIpp.operator_add h x y =
  let d := union_with (λ c d, Some (c + d)) (deps x) ((λ d, d * v1) <$> deps y) in
  {| m_mean_ := mean x + mean y;
     m_std_ := vsqrt (sum_sq h d);
     m_deps_ := d |}.
Proof.
  unfold OperationsIpp.operator_add, OperationsIpp.operator_add_assign,
    update_derivatives_deps, calculate_std, set_deps,
    update_mean, deref, mean, deps; cbn.
  by rewrite update_dependencies_union_with.
Qed.

(** An uncertain value divided by a plain number, part_002 and
    division.cpp. *)
Lemma operator_div_double_unfold h u v :
  OperationsIpp.operator_div_double h u v =
  {| m_mean_ := mean u / v;
     m_std_ := vsqrt (sum_sq h ((λ c, c * (v1 / v)) <$> deps u));
     m_deps_ := (λ c, c * (v1 / v)) <$> deps u |}.
Proof.
  unfold OperationsIpp.operator_div_double,
    OperationsIpp.operator_div_assign_double, update_derivatives,
    calculate_std, set_deps, update_mean, mean, deps; cbn.
  by rewrite scale_each_fmap.
Qed.

Lemma operator_div_double_cpp h u v :
  DivisionCpp.operator_div_double h u v
  = OperationsIpp.operator_div_double h u v.
Proof. reflexivity. Qed.

(** The compound product with both operands naming one object: the merge
    reads the map the scaling has just written. *)
Lemma operator_mul_assign_self_unfold h x :
  OperationsIpp.operator_mul_assign h x same_object =
  let d := (λ c, c * mean x + c * mean x * mean x) <$> deps x in
  {| m_mean_ := mean x * mean x;
     m_std_ := vsqrt (sum_sq h d);
     m_deps_ := d |}.
Proof.
  unfold OperationsIpp.operator_mul_assign, update_derivatives_deps,
    update_derivatives, calculate_std, set_deps, update_mean, deref, mean,
    deps; cbn.
  rewrite update_dependencies_union_with, scale_each_fmap.
  apply derived_eq; [done|].
  apply map_eq; intros k.
  rewrite lookup_union_with, !lookup_fmap.
  by destruct (m_deps_ x !! k).
Qed.
End MoreOperatorFacts.

(** ** Dependencies and identities, for every numeric type *)
Section DependencyKeys.
Context {T : Type} `{ValueType T}.
Local Open Scope val_scope.
Variable std_pow : T → T → T.
Implicit Types (h : Heap T) (u x y : Uncertain T).

(** X2: scaling by a plain number, [pow], negation and the divisions by or of a
    plain number keep the keys of the operand as they are, also when the
    factor is zero. *)
Theorem scaling_keeps_the_dependencies h u (v : T) :
  dom (deps (UncertainHpp.operator_mul_num h u v)) = dom (deps u) ∧
  dom (deps (UncertainHpp.operator_num_mul h v u)) = dom (deps u) ∧
  dom (deps (UncertainHpp.pow std_pow h u v)) = dom (deps u) ∧
  dom (deps (OperationsIpp.operator_neg h u)) = dom (deps u) ∧
  dom (deps (OperationsIpp.operator_mul_double h u v)) = dom (deps u) ∧
  dom (deps (OperationsIpp.operator_div_double h u v)) = dom (deps u) ∧
  dom (deps (OperationsIpp.operator_double_div std_pow h v u)) = dom (deps u) ∧
  dom (deps (DivisionCpp.operator_div_double h u v)) = dom (deps u) ∧
  dom (deps (DivisionCpp.operator_double_div std_pow h v u)) = dom (deps u).
Proof.
  unfold UncertainHpp.operator_num_mul.
  change (OperationsIpp.operator_double_div std_pow h v u)
    with (DivisionCpp.operator_double_div std_pow h v u).
  change (DivisionCpp.operator_div_double h u v)
    with (OperationsIpp.operator_div_double h u v).
  rewrite operator_mul_num_unfold, pow_unfold, operator_neg_unfold,
    operator_mul_double_unfold, operator_div_double_unfold,
    operator_double_div_unfold.
  split_and!; cbv zeta; unfold deps at 1; cbn [m_deps_]; apply dom_fmap_L.
Qed.

(** X3: two values constructed one after the other never compare equal, whatever
    their means and standard deviations: each depends on its own independent
    variable, and [operator==] compares the keys of the maps. *)
Theorem independent_constructions_are_not_equal h (mu1 sigma1 mu2 sigma2 : T) :
  let '(x, h1) := Uncertain_new h mu1 sigma1 in
  let '(y, h2) := Uncertain_new h1 mu2 sigma2 in
  UncertainHpp.operator_eq x y = false ∧ UncertainHpp.operator_ne x y = true.
Proof.
  rewrite !Uncertain_new_unfold.
  match goal with |- ?e = false ∧ _ => assert (He : e = false) end.
  { apply not_true_is_false. intros (_ & _ & Hag)%operator_eq_spec.
    specialize (Hag (length h)). unfold deps in Hag. cbn [m_deps_] in Hag.
    rewrite lookup_singleton_eq, lookup_singleton_ne in Hag; [done|].
    rewrite length_app. cbn. lia. }
  split; [done|]. unfold UncertainHpp.operator_ne. by rewrite He.
Qed.
End DependencyKeys.

(** Unfold every operator to its mean and its map. *)
Ltac unfold_operators :=
  unfold UncertainHpp.operator_num_mul, OperationsIpp.operator_double_mul;
  repeat first
    [ rewrite operator_div_cpp
    | rewrite operator_add_unfold
    | rewrite operator_sub_unfold
    | rewrite operator_sub_cpp_unfold
    | rewrite operator_mul_unfold
    | rewrite operator_div_unfold
    | rewrite operator_neg_unfold
    | rewrite operator_mul_num_unfold
    | rewrite operator_mul_double_unfold
    | rewrite operator_div_double_unfold
    | rewrite operator_double_div_unfold
    | rewrite pow_unfold
    | rewrite operator_mul_assign_self_unfold ];
  cbv zeta; unfold mean, deps, std in *; cbn [m_mean_ m_deps_ m_std_].

(** Compare two maps key by key. *)
Ltac by_key k :=
  apply map_eq; intros k;
  repeat first
    [ rewrite merge_scaled_lookup
    | rewrite lookup_union_with
    | rewrite lookup_fmap ];
  repeat match goal with
         | |- context [m_deps_ ?x !! k] => destruct (m_deps_ x !! k)
         end;
  cbn [union_with option_union_with fmap option_fmap option_map];
  vsimpl; try done; try (f_equal; unfold Rdiv; ring).

(** ** The algebra of the operators over the reals *)
Section RealAlgebra.
Local Open Scope R_scope.
Implicit Types (h : Heap R) (u x y z : Uncertain R).

(** The real sum of squares only reads the non-zero coefficients. *)
Lemma spec_sum_coeff_ext h (m m' : deps_map_t R) :
  (∀ k, default 0 (m !! k) = default 0 (m' !! k)) →
  spec_sum h m = spec_sum h m'.
Proof.
  revert m'. induction m as [|i c m Hi IH] using map_ind; intros m' Hm.
  - rewrite spec_sum_empty. symmetry. apply spec_sum_zero.
    intros k c Hk. specialize (Hm k). by rewrite lookup_empty, Hk in Hm.
  - rewrite spec_sum_insert by done.
    pose proof (Hm i) as Hmi. rewrite lookup_insert_eq in Hmi. cbn in Hmi.
    destruct (m' !! i) as [c'|] eqn:Ei; cbn in Hmi; subst c.
    + rewrite <- (insert_delete_id m' i c') by done.
      rewrite spec_sum_insert by apply lookup_delete_eq.
      f_equal. apply IH. intros k. destruct (decide (k = i)) as [->|Hk].
      * by rewrite Hi, lookup_delete_eq.
      * specialize (Hm k).
        by rewrite lookup_insert_ne, <- (lookup_delete_ne m' i k) in Hm.
    + rewrite (IH m'); [lra|]. intros k.
      destruct (decide (k = i)) as [->|Hk].
      * by rewrite Hi, Ei.
      * specialize (Hm k). by rewrite lookup_insert_ne in Hm.
Qed.

(** X4: negation keeps the standard deviation, and negating twice gives the
    value back. *)
Theorem negation_is_an_involution h u :
  std_derived h u →
  let n := OperationsIpp.operator_neg h u in
  mean n = - mean u ∧
  deps n = (λ d, - d) <$> deps u ∧
  std n = std u ∧
  OperationsIpp.operator_neg h n = u.
Proof.
  intros Hu n. subst n.
  assert (Hd : (λ c, (c * - v1)%V) <$> deps u = (λ d, - d) <$> deps u).
  { apply map_fmap_ext. intros k d _. vsimpl. ring. }
  assert (Hs : std (OperationsIpp.operator_neg h u) = std u).
  { rewrite (std_derived_spec h u Hu). unfold_operators.
    rewrite vsqrt_sum_sq, sqrt_spec_sum_scale. vsimpl.
    rewrite Rabs_Ropp, Rabs_R1. unfold spec_std. lra. }
  assert (Hdd : (λ c, (c * - v1)%V) <$> ((λ c, (c * - v1)%V) <$> deps u)
                = deps u).
  { apply map_eq; intros k. rewrite !lookup_fmap.
    destruct (deps u !! k); cbn; [|done]. f_equal. vsimpl. ring. }
  split_and!;
    [unfold_operators; reflexivity|unfold_operators; apply Hd|exact Hs|].
  apply uncertain_eq.
  - unfold_operators. vsimpl. lra.
  - unfold_operators. rewrite Hdd. symmetry. exact Hu.
  - unfold_operators. apply Hdd.
Qed.

(** X5: addition is commutative and associative: the sums are the same values,
    member for member. *)
Theorem addition_is_commutative_and_associative h x y z :
  OperationsIpp.operator_add h x y = OperationsIpp.operator_add h y x ∧
  OperationsIpp.operator_add h (OperationsIpp.operator_add h x y) z
  = OperationsIpp.operator_add h x (OperationsIpp.operator_add h y z).
Proof.
  split; unfold_operators; (apply derived_eq; [vsimpl; lra|by_key k]).
Qed.

(** X6: [x + (-x)] has mean 0 and standard deviation 0; every coefficient
    cancels. *)
Theorem additive_inverse h x :
  let c := OperationsIpp.operator_add h x (OperationsIpp.operator_neg h x) in
  mean c = 0 ∧ std c = 0 ∧ ∀ k d, deps c !! k = Some d → d = 0.
Proof.
  intros c. subst c. unfold_operators.
  assert (Hz : ∀ k d,
    union_with (λ c d, Some (c + d)%V) (m_deps_ x)
      ((λ d, (d * v1)%V) <$> ((λ c, (c * - v1)%V) <$> m_deps_ x)) !! k
    = Some d → d = 0).
  { intros k d. rewrite lookup_union_with, !lookup_fmap.
    destruct (m_deps_ x !! k); cbn; [|done]. vsimpl. intros [= <-]. ring. }
  split_and!; [vsimpl; lra| |done].
  rewrite vsqrt_sum_sq, spec_sum_zero by done. apply sqrt_0.
Qed.

(** X7: subtraction is the addition of the negation, and subtraction.cpp
    returns what part_002 returns. *)
Theorem subtraction_adds_the_negation h x y (any_mean any_std : R) :
  OperationsIpp.operator_sub h x y
  = OperationsIpp.operator_add h x (OperationsIpp.operator_neg h y) ∧
  SubtractionCpp.operator_sub any_mean any_std h x y
  = OperationsIpp.operator_sub h x y.
Proof.
  split; unfold_operators; (apply derived_eq; [vsimpl; lra|by_key k]).
Qed.

(** X8: the product is commutative. *)
Theorem product_is_commutative h x y :
  OperationsIpp.operator_mul h x y = OperationsIpp.operator_mul h y x.
Proof.
  unfold_operators. apply derived_eq; [vsimpl; lra|by_key k].
Qed.

(** X9: scaling distributes over addition, by the operator of part_002 and by
    the one of uncertain.hpp. *)
Theorem scaling_distributes_over_addition h x y (k : R) :
  OperationsIpp.operator_mul_double h (OperationsIpp.operator_add h x y) k
  = OperationsIpp.operator_add h (OperationsIpp.operator_mul_double h x k)
      (OperationsIpp.operator_mul_double h y k) ∧
  UncertainHpp.operator_mul_num h (OperationsIpp.operator_add h x y) k
  = OperationsIpp.operator_add h (UncertainHpp.operator_mul_num h x k)
      (UncertainHpp.operator_mul_num h y k).
Proof.
  split; unfold_operators; (apply derived_eq; [vsimpl; lra|by_key j]).
Qed.
End RealAlgebra.

(** ** Scalars, powers and quotients over the reals *)
Section RealScalars.
Local Open Scope R_scope.
Implicit Types (h : Heap R) (u x y z : Uncertain R).

Lemma derived_eq_R h (a b : R) (m1 m2 : deps_map_t R) :
  a = b → m1 = m2 →
  {| m_mean_ := a; m_std_ := sqrt (sum_sq h m1); m_deps_ := m1 |}
  = {| m_mean_ := b; m_std_ := sqrt (sum_sq h m2); m_deps_ := m2 |}.
Proof. by intros -> ->. Qed.

Lemma Rstd_pow_positive (x y : R) : 0 < x → Rstd_pow x y = Rpower x y.
Proof.
  intros Hx. unfold Rstd_pow.
  destruct (Req_dec_T y (IZR (Int_part y))) as [Hy|_].
  - rewrite powerRZ_Rpower by done. by rewrite <- Hy.
  - by destruct (Rlt_dec 0 x).
Qed.

(** X10: dividing by a plain number [k ≠ 0] is scaling by [1 / k]: the same
    value, with the standard deviation divided by [|k|]; division.cpp
    returns what part_002 returns. *)
Theorem division_by_a_number_is_scaling h u (k : R) :
  k ≠ 0 → std_derived h u →
  let c := OperationsIpp.operator_div_double h u k in
  c = OperationsIpp.operator_mul_double h u (1 / k) ∧
  DivisionCpp.operator_div_double h u k = c ∧
  mean c = mean u / k ∧
  std c = std u / Rabs k.
Proof.
  intros Hk Hu c. subst c. split_and!.
  - unfold_operators. apply derived_eq; [vsimpl; unfold Rdiv; ring|done].
  - reflexivity.
  - by unfold_operators.
  - rewrite (std_derived_spec h u Hu). unfold_operators.
    rewrite vsqrt_sum_sq. vsimpl. rewrite sqrt_spec_sum_scale.
    unfold Rdiv at 1. rewrite Rmult_1_l, Rabs_inv.
    unfold spec_std, Rdiv. ring.
Qed.

(** X11: a plain number [k] divided by [y] (with a mean other than zero) has mean
    [k / mean(y)] and every coefficient of [y] scaled by [-k / mean(y)^2]; it
    is [k] times the reciprocal [1 / y]. *)
Theorem number_divided_by_uncertain h (k : R) y :
  mean y ≠ 0 →
  let c := DivisionCpp.operator_double_div Rstd_pow h k y in
  mean c = k / mean y ∧
  deps c = (λ d, d * (- k / mean y ^ 2)) <$> deps y ∧
  OperationsIpp.operator_double_div Rstd_pow h k y = c ∧
  c = OperationsIpp.operator_mul_double h
        (DivisionCpp.operator_double_div Rstd_pow h 1 y) k.
Proof.
  intros Hy c. subst c. split_and!.
  - by unfold_operators.
  - unfold_operators. vsimpl. rewrite Rstd_pow_2.
    apply map_fmap_ext. intros j d _. cbn. unfold Rdiv. f_equal. f_equal.
    f_equal. ring.
  - reflexivity.
  - unfold_operators. apply derived_eq; [vsimpl; unfold Rdiv; ring|].
    rewrite <- map_fmap_compose. apply map_fmap_ext. intros j d _.
    cbn. vsimpl. unfold Rdiv. ring.
Qed.

(** X12: [x / x], for a mean other than zero, is exactly one: mean 1, standard
    deviation 0, every coefficient cancelled; so by part_002 and by
    division.cpp. *)
Theorem self_quotient_is_exactly_one h x (any_mean any_std : R) :
  mean x ≠ 0 →
  let c := OperationsIpp.operator_div Rstd_pow h x x in
  mean c = 1 ∧ std c = 0 ∧ (∀ k d, deps c !! k = Some d → d = 0) ∧
  DivisionCpp.operator_div Rstd_pow any_mean any_std h x x = c.
Proof.
  intros Hx c. subst c.
  split_and!; [| | |apply operator_div_cpp]; unfold_operators; vsimpl.
  - by field.
  - rewrite sum_sq_spec, spec_sum_zero; [apply sqrt_0|].
    intros k d. rewrite merge_scaled_lookup. vsimpl. rewrite Rstd_pow_2.
    destruct (m_deps_ x !! k); [|done]. intros [= <-]. by field.
  - intros k d. rewrite merge_scaled_lookup. vsimpl. rewrite Rstd_pow_2.
    destruct (m_deps_ x !! k); [|done]. intros [= <-]. by field.
Qed.

(** X13: scaling twice is scaling by the product; scaling by 1 changes nothing;
    scaling by 0 gives mean 0 and standard deviation 0. *)
Theorem scaling_composes h u (a b : R) :
  std_derived h u →
  UncertainHpp.operator_mul_num h (UncertainHpp.operator_mul_num h u a) b
  = UncertainHpp.operator_mul_num h u (a * b) ∧
  UncertainHpp.operator_mul_num h u 1 = u ∧
  mean (UncertainHpp.operator_mul_num h u 0) = 0 ∧
  std (UncertainHpp.operator_mul_num h u 0) = 0.
Proof.
  intros Hu.
  assert (Hid : (λ c, (c * 1)%V) <$> deps u = deps u).
  { apply map_eq; intros k. rewrite lookup_fmap.
    destruct (deps u !! k); cbn; [|done]. f_equal. vsimpl. ring. }
  split_and!.
  - unfold_operators. apply derived_eq; [vsimpl; ring|].
    rewrite <- map_fmap_compose. apply map_fmap_ext. intros j d _.
    cbn. vsimpl. ring.
  - apply uncertain_eq; unfold_operators.
    + vsimpl. ring.
    + rewrite Hid. symmetry. exact Hu.
    + exact Hid.
  - unfold_operators. vsimpl. ring.
  - unfold_operators. rewrite vsqrt_sum_sq, sqrt_spec_sum_scale.
    rewrite Rabs_R0. ring.
Qed.

(** X14: for a positive mean, raising to the power [a] and then to the power [b]
    is raising to the power [a * b] (the chain rule composes); raising to
    the power 1 changes nothing. *)
Theorem pow_composes h x (a b : R) :
  0 < mean x → std_derived h x →
  UncertainHpp.pow Rstd_pow h (UncertainHpp.pow Rstd_pow h x a) b
  = UncertainHpp.pow Rstd_pow h x (a * b) ∧
  UncertainHpp.pow Rstd_pow h x 1 = x.
Proof.
  intros Hx Hu.
  assert (Hpos : ∀ e, 0 < Rpower (mean x) e) by (intros e; apply exp_pos).
  split.
  - unfold_operators. vsimpl.
    rewrite !(Rstd_pow_positive (m_mean_ x)) by done.
    rewrite !(Rstd_pow_positive (Rpower (m_mean_ x) a)) by apply Hpos.
    rewrite !Rpower_mult.
    apply derived_eq_R; [done|].
    rewrite <- map_fmap_compose. apply map_fmap_ext. intros j d _. cbn.
    replace (a * b - 1) with ((a - 1) + a * (b - 1)) by ring.
    rewrite Rpower_plus. ring.
  - apply uncertain_eq; unfold_operators; vsimpl.
    + apply Rstd_pow_1.
    + replace (1 - 1) with 0 by ring. rewrite (Rstd_pow_integral _ 0).
      rewrite powerRZ_O.
      replace ((λ c, c * (1 * 1)) <$> m_deps_ x) with (m_deps_ x).
      * symmetry. exact Hu.
      * apply map_eq; intros k. rewrite lookup_fmap.
        destruct (m_deps_ x !! k); cbn; [|done]. f_equal. ring.
    + replace (1 - 1) with 0 by ring. rewrite (Rstd_pow_integral _ 0).
      rewrite powerRZ_O.
      apply map_eq; intros k. rewrite lookup_fmap.
      destruct (m_deps_ x !! k); cbn; [|done]. f_equal. ring.
Qed.
End RealScalars.

(** ** Round trips and self-assignment over the reals *)
Section RealRoundTrips.
Local Open Scope R_scope.
Implicit Types (h : Heap R) (u x y z : Uncertain R).

(** The standard deviation of a value whose map has the coefficients of
    [x], up to entries with coefficient zero. *)
Lemma std_of_same_coefficients h x (m : deps_map_t R) :
  std_derived h x →
  (∀ k, default 0 (m !! k) = default 0 (deps x !! k)) →
  sqrt (sum_sq h m) = std x.
Proof.
  intros Hx Hm. rewrite (std_derived_spec h x Hx). unfold spec_std.
  by rewrite sum_sq_spec, (spec_sum_coeff_ext h m (deps x)).
Qed.

(** X15: adding [y] and then subtracting the same [y] gives the mean and the
    standard deviation of [x] back, and for every independent variable the
    coefficient of [x], an absent entry counting as the coefficient zero. *)
Theorem sum_then_difference_recovers h x y :
  std_derived h x →
  let c := OperationsIpp.operator_sub h (OperationsIpp.operator_add h x y) y in
  mean c = mean x ∧ std c = std x ∧
  ∀ k, default 0 (deps c !! k) = default 0 (deps x !! k).
Proof.
  intros Hx c. subst c.
  assert (Hk : ∀ k,
    default 0 (deps (OperationsIpp.operator_sub h
                       (OperationsIpp.operator_add h x y) y) !! k)
    = default 0 (deps x !! k)).
  { intros k. unfold_operators.
    repeat first [rewrite lookup_union_with | rewrite lookup_fmap].
    destruct (m_deps_ x !! k), (m_deps_ y !! k); cbn; vsimpl; lra. }
  split_and!; [unfold_operators; vsimpl; lra| |done].
  pose proof (std_of_same_coefficients h x _ Hx Hk) as Hs.
  revert Hs. unfold_operators. by vsimpl.
Qed.

(** X16: multiplying by [y] and then dividing by the same [y] (of a mean other
    than zero), or dividing and then multiplying, gives the mean and the
    standard deviation of [x] back. *)
Theorem product_then_quotient_recovers h x y :
  mean y ≠ 0 → std_derived h x →
  (let c := OperationsIpp.operator_div Rstd_pow h
              (OperationsIpp.operator_mul h x y) y in
   mean c = mean x ∧ std c = std x) ∧
  (let c := OperationsIpp.operator_mul h
              (OperationsIpp.operator_div Rstd_pow h x y) y in
   mean c = mean x ∧ std c = std x).
Proof.
  intros Hy Hx.
  assert (Hk1 : ∀ k,
    default 0 (deps (OperationsIpp.operator_div Rstd_pow h
                       (OperationsIpp.operator_mul h x y) y) !! k)
    = default 0 (deps x !! k)).
  { intros k. unfold_operators. rewrite !merge_scaled_lookup. vsimpl.
    rewrite Rstd_pow_2.
    destruct (m_deps_ x !! k), (m_deps_ y !! k); cbn; by field. }
  assert (Hk2 : ∀ k,
    default 0 (deps (OperationsIpp.operator_mul h
                       (OperationsIpp.operator_div Rstd_pow h x y) y) !! k)
    = default 0 (deps x !! k)).
  { intros k. unfold_operators. rewrite !merge_scaled_lookup. vsimpl.
    rewrite Rstd_pow_2.
    destruct (m_deps_ x !! k), (m_deps_ y !! k); cbn; by field. }
  pose proof (std_of_same_coefficients h x _ Hx Hk1) as Hs1.
  pose proof (std_of_same_coefficients h x _ Hx Hk2) as Hs2.
  revert Hs1 Hs2. unfold_operators. vsimpl. intros Hs1 Hs2.
  split; (split; [by field|done]).
Qed.

(** X17: [x += x] and [x -= x], with both operands naming one object, leave in
    [x] what [x + x] and [x - x] return; [x += x] is [x * 2.0]. *)
Theorem self_assignment_of_sum_and_difference h x :
  OperationsIpp.operator_add_assign h x same_object
  = OperationsIpp.operator_add h x x ∧
  OperationsIpp.operator_add_assign h x same_object
  = OperationsIpp.operator_mul_double h x 2 ∧
  OperationsIpp.operator_sub_assign h x same_object
  = OperationsIpp.operator_sub h x x ∧
  SubtractionCpp.operator_sub_assign h x same_object
  = OperationsIpp.operator_sub h x x.
Proof.
  split_and!; try reflexivity.
  change (OperationsIpp.operator_add_assign h x same_object)
    with (OperationsIpp.operator_add h x x).
  unfold_operators. apply derived_eq; [vsimpl; lra|by_key k].
Qed.

(** X18: [x *= x], with both operands naming one object, does not leave the
    square in [x]: the merge reads the map the scaling has just written, so
    a coefficient [d] becomes [d * mean(x) * (1 + mean(x))] instead of
    [2 * mean(x) * d].  With a coefficient other than zero and a mean other
    than 0 and 1 the result differs from [x * x]. *)
Theorem self_assignment_of_product h x :
  let c := OperationsIpp.operator_mul_assign h x same_object in
  mean c = mean x * mean x ∧
  deps c = (λ d, d * mean x * (1 + mean x)) <$> deps x ∧
  (∀ k d, deps x !! k = Some d → d ≠ 0 → mean x ≠ 0 → mean x ≠ 1 →
          c ≠ OperationsIpp.operator_mul h x x).
Proof.
  intros c. subst c.
  assert (Hd : deps (OperationsIpp.operator_mul_assign h x same_object)
               = (λ d, d * mean x * (1 + mean x)) <$> deps x).
  { unfold_operators. apply map_fmap_ext. intros k d _. vsimpl. ring. }
  split_and!; [by unfold_operators|done|].
  intros k d Hk Hd0 Hm0 Hm1 Heq.
  assert (Hc : deps (OperationsIpp.operator_mul_assign h x same_object) !! k
               = deps (OperationsIpp.operator_mul h x x) !! k)
    by by rewrite Heq.
  rewrite Hd in Hc. revert Hc. unfold_operators.
  rewrite lookup_fmap, merge_scaled_lookup, Hk. cbn. vsimpl.
  intros [= Hc].
  assert (Hz : d * (m_mean_ x * (m_mean_ x - 1)) = 0) by lra.
  apply Rmult_integral in Hz as [Hz|Hz]; [done|].
  apply Rmult_integral in Hz as [Hz|Hz]; [done|]. apply Hm1. lra.
Qed.
End RealRoundTrips.

(** ** Transitivity of equality, for every numeric type *)
Section EqualityTransitivity.
Context {T : Type} `{ValueType T}.
Local Open Scope val_scope.
Implicit Types (a b c : deps_map_t T) (x y z : Uncertain T).

Lemma deps_agree_trans a b c :
  (∀ d e f : T, (d =? e) = true → (e =? f) = true → (d =? f) = true) →
  deps_agree a b → deps_agree b c → deps_agree a c.
Proof.
  intros Htr Hab Hbc k. specialize (Hab k). specialize (Hbc k).
  destruct (a !! k), (b !! k), (c !! k); try done. by eapply Htr.
Qed.

(** Where [==] of the numeric type is transitive, so is [operator==]. *)
Lemma operator_eq_trans x y z :
  (∀ d e f : T, (d =? e) = true → (e =? f) = true → (d =? f) = true) →
  UncertainHpp.operator_eq x y = true →
  UncertainHpp.operator_eq y z = true →
  UncertainHpp.operator_eq x z = true.
Proof.
  intros Htr (Hm1 & Hs1 & Hd1)%operator_eq_spec
    (Hm2 & Hs2 & Hd2)%operator_eq_spec.
  apply operator_eq_spec. split_and!.
  - by eapply Htr.
  - by eapply Htr.
  - by eapply deps_agree_trans.
Qed.
End EqualityTransitivity.

(** ** Further facts over binary64 *)
Section Binary64MoreFacts.
Import PrimFloat SpecFloat FloatOps FloatAxioms.

(** Two values of the specification that compare equal are two zeros, or
    the same value, which is not a NaN. *)
Lemma SFeqb_true_inv (s t : spec_float) :
  SFeqb s t = true →
  (∃ a b, s = S754_zero a ∧ t = S754_zero b) ∨ (s = t ∧ s ≠ S754_nan).
Proof.
  unfold SFeqb, SFcompare.
  destruct s as [[]|[]| |[] m e], t as [[]|[]| |[] m' e']; try discriminate;
    try (intros _; first [left; by eauto | by right]).
  - destruct (Z.compare e e') eqn:Ee; try discriminate.
    apply Z.compare_eq in Ee as ->.
    change (Pos.compare_cont Eq m m') with (Pos.compare m m').
    destruct (Pos.compare m m') eqn:Em; try discriminate.
    apply Pos.compare_eq in Em as ->. intros _. by right.
  - destruct (Z.compare e e') eqn:Ee; try discriminate.
    apply Z.compare_eq in Ee as ->.
    change (Pos.compare_cont Eq m m') with (Pos.compare m m').
    destruct (Pos.compare m m') eqn:Em; try discriminate.
    apply Pos.compare_eq in Em as ->. intros _. by right.
Qed.

Lemma SFeqb_trans (s t u : spec_float) :
  SFeqb s t = true → SFeqb t u = true → SFeqb s u = true.
Proof.
  intros [(a & b & -> & ->)|[-> Hs]]%SFeqb_true_inv
    [(a' & b' & Ht & ->)|[<- Ht]]%SFeqb_true_inv; try done.
  - by subst t.
  - rewrite SFeqb_diag. by destruct t.
Qed.

(** [==] on binary64 is transitive. *)
Lemma float_eqb_trans (d e f : float) :
  (d =? e)%V = true → (e =? f)%V = true → (d =? f)%V = true.
Proof. cbn [veqb float_ValueType]. rewrite !eqb_spec. apply SFeqb_trans. Qed.

(** A NaN operand gives a NaN result. *)
Lemma is_nan_add (a b : float) :
  is_nan a = true ∨ is_nan b = true → is_nan (add a b) = true.
Proof.
  rewrite !is_nan_spec, add_spec.
  destruct (Prim2SF a) as [[]|[]| |], (Prim2SF b) as [[]|[]| |];
    cbn; intros [?|?]; done.
Qed.

Lemma is_nan_sub (a b : float) :
  is_nan a = true ∨ is_nan b = true → is_nan (sub a b) = true.
Proof.
  rewrite !is_nan_spec, sub_spec.
  destruct (Prim2SF a) as [[]|[]| |], (Prim2SF b) as [[]|[]| |];
    cbn; intros [?|?]; done.
Qed.

Lemma is_nan_mul (a b : float) :
  is_nan a = true ∨ is_nan b = true → is_nan (mul a b) = true.
Proof.
  rewrite !is_nan_spec, mul_spec.
  destruct (Prim2SF a) as [[]|[]| |], (Prim2SF b) as [[]|[]| |];
    cbn; intros [?|?]; done.
Qed.

Lemma is_nan_div (a b : float) :
  is_nan a = true ∨ is_nan b = true → is_nan (div a b) = true.
Proof.
  rewrite !is_nan_spec, div_spec.
  destruct (Prim2SF a) as [[]|[]| |], (Prim2SF b) as [[]|[]| |];
    cbn; intros [?|?]; done.
Qed.

Lemma is_nan_opp (a : float) : is_nan a = true → is_nan (opp a) = true.
Proof. rewrite !is_nan_spec, opp_spec. by destruct (Prim2SF a). Qed.
End Binary64MoreFacts.

(** ** Equality, NaN and division by a plain zero on [UDouble] *)
Section Binary64MoreClaims.
Import PrimFloat SpecFloat FloatOps FloatAxioms.

(** X19: [operator==] on [UDouble] is transitive (with its symmetry, a partial
    equivalence: only reflexivity fails, on NaN). *)
Theorem equality_is_transitive (x y z : Uncertain float) :
  UncertainHpp.operator_eq x y = true →
  UncertainHpp.operator_eq y z = true →
  UncertainHpp.operator_eq x z = true.
Proof. apply operator_eq_trans. exact float_eqb_trans. Qed.

(** X20: a value whose mean is a NaN compares unequal to every value, itself
    included, on either side of [==]. *)
Theorem nan_mean_equals_nothing (x y : Uncertain float) :
  is_nan (mean x) = true →
  UncertainHpp.operator_eq x y = false ∧
  UncertainHpp.operator_eq y x = false ∧
  UncertainHpp.operator_ne x y = true.
Proof.
  intros Hx.
  assert (He : UncertainHpp.operator_eq x y = false).
  { unfold UncertainHpp.operator_eq. cbn [veqb float_ValueType].
    rewrite is_nan_spec in Hx. rewrite eqb_spec.
    destruct (Prim2SF (mean x)); try discriminate. reflexivity. }
  split_and!; [done| |by unfold UncertainHpp.operator_ne; rewrite He].
  by rewrite (operator_eq_sym y x float_eqb_sym).
Qed.

(** X21: a NaN mean in either operand gives a NaN mean in the sum, the
    difference, the product and the quotient; a NaN mean in the operand
    gives a NaN mean in the negation and in every combination with a plain
    number. *)
Theorem nan_mean_propagates (std_pow : float → float → float)
    (h : Heap float) (x y : Uncertain float) (k any_mean any_std : float) :
  (is_nan (mean x) = true ∨ is_nan (mean y) = true →
   is_nan (mean (OperationsIpp.operator_add h x y)) = true ∧
   is_nan (mean (OperationsIpp.operator_sub h x y)) = true ∧
   is_nan (mean (SubtractionCpp.operator_sub any_mean any_std h x y)) = true ∧
   is_nan (mean (OperationsIpp.operator_mul h x y)) = true ∧
   is_nan (mean (OperationsIpp.operator_div std_pow h x y)) = true ∧
   is_nan (mean (DivisionCpp.operator_div std_pow any_mean any_std h x y))
     = true) ∧
  (is_nan (mean x) = true →
   is_nan (mean (OperationsIpp.operator_neg h x)) = true ∧
   is_nan (mean (UncertainHpp.operator_mul_num h x k)) = true ∧
   is_nan (mean (OperationsIpp.operator_mul_double h x k)) = true ∧
   is_nan (mean (OperationsIpp.operator_div_double h x k)) = true ∧
   is_nan (mean (DivisionCpp.operator_div_double h x k)) = true ∧
   is_nan (mean (DivisionCpp.operator_double_div std_pow h k x)) = true ∧
   is_nan (mean (OperationsIpp.operator_double_div std_pow h k x)) = true).
Proof.
  split.
  - intros Hn. rewrite operator_div_cpp.
    rewrite operator_add_unfold, operator_sub_unfold, operator_sub_cpp_unfold,
      operator_mul_unfold, operator_div_unfold.
    cbv zeta. unfold mean in *. cbn [m_mean_].
    cbn [vadd vsub vmul vdiv float_ValueType].
    split_and!; auto using is_nan_add, is_nan_sub, is_nan_mul, is_nan_div.
  - intros Hn.
    change (OperationsIpp.operator_double_div std_pow h k x)
      with (DivisionCpp.operator_double_div std_pow h k x).
    change (DivisionCpp.operator_div_double h x k)
      with (OperationsIpp.operator_div_double h x k).
    rewrite operator_neg_unfold, operator_mul_num_unfold,
      operator_mul_double_unfold, operator_div_double_unfold,
      operator_double_div_unfold.
    cbv zeta. unfold mean in *. cbn [m_mean_].
    cbn [vopp vmul vdiv float_ValueType].
    split_and!; auto using is_nan_opp, is_nan_mul, is_nan_div.
Qed.

(** X22: dividing by a plain number that is a zero (of either sign) raises
    nothing: the mean and every coefficient of the result are infinite or
    NaN; so for [u / k] of part_002 and of division.cpp and for [u /= k]. *)
Theorem division_by_plain_zero_is_silent
    (h : Heap float) (u : Uncertain float) (k : float) :
  (k =? zero)%float = true →
  ∀ c : Uncertain float,
    c = OperationsIpp.operator_div_double h u k ∨
    c = DivisionCpp.operator_div_double h u k ∨
    c = OperationsIpp.operator_div_assign_double h u k →
    is_inf_or_nan (mean c) = true ∧
    ∀ j d, deps c !! j = Some d → is_inf_or_nan d = true.
Proof.
  intros Hk c Hc.
  assert (c = OperationsIpp.operator_div_double h u k) as ->
    by (by destruct Hc as [->|[->| ->]]).
  rewrite operator_div_double_unfold. unfold mean, deps. cbn [m_mean_ m_deps_].
  cbn [vdiv v1 float_ValueType].
  split; [by apply div_by_zero|].
  intros j d. apply fmap_scale_inf_or_nan. by apply div_by_zero.
Qed.

(** The values [(+0, 1)] and [(-0, 1)] on one independent variable compare
    equal although their means differ in sign. *)
Lemma equality_is_transitive_at_zeros :
  let x := {| m_mean_ := zero; m_std_ := one;
              m_deps_ := ({[ 0%nat := one ]} : deps_map_t float) |} in
  let y := {| m_mean_ := neg_zero; m_std_ := one;
              m_deps_ := ({[ 0%nat := one ]} : deps_map_t float) |} in
  UncertainHpp.operator_eq x y = true ∧
  UncertainHpp.operator_eq y x = true ∧
  UncertainHpp.operator_eq x x = true.
Proof.
  intros x y.
  assert (H1 : UncertainHpp.operator_eq x y = true) by reflexivity.
  assert (H2 : UncertainHpp.operator_eq y x = true) by reflexivity.
  split; [exact H1|]. split; [exact H2|].
  exact (equality_is_transitive x y x H1 H2).
Defined.

(** [Uncertain(NaN, 1)] against [Uncertain(2, 0.5)]. *)
Lemma nan_mean_equals_nothing_at_2 :
  let x := (Uncertain_new ([] : Heap float) nan one).1 in
  let y := (Uncertain_new ([] : Heap float) 2%float 0.5%float).1 in
  is_nan (mean x) = true ∧
  UncertainHpp.operator_eq x y = false ∧
  UncertainHpp.operator_eq y x = false ∧
  UncertainHpp.operator_ne x y = true.
Proof.
  intros x y.
  assert (Hx : is_nan (mean x) = true) by reflexivity.
  split; [exact Hx|]. exact (nan_mean_equals_nothing x y Hx).
Defined.

(** [Uncertain(NaN, 1) + Uncertain(2, 0.5)]. *)
Lemma nan_mean_propagates_at_2 :
  let x := (Uncertain_new ([] : Heap float) nan one).1 in
  let h1 := (Uncertain_new ([] : Heap float) nan one).2 in
  let y := (Uncertain_new h1 2%float 0.5%float).1 in
  let h2 := (Uncertain_new h1 2%float 0.5%float).2 in
  (is_nan (mean x) = true ∨ is_nan (mean y) = true) ∧
  is_nan (mean (OperationsIpp.operator_add h2 x y)) = true.
Proof.
  intros x h1 y h2.
  assert (Hx : is_nan (mean x) = true ∨ is_nan (mean y) = true)
    by (left; reflexivity).
  split; [exact Hx|].
  exact (proj1 (proj1 (nan_mean_propagates (λ b _, (b * b)%float) h2 x y
                         one zero zero) Hx)).
Defined.

(** [Uncertain(1, 0.5) / 0.0]: the mean is infinite. *)
Lemma division_by_plain_zero_is_silent_at_1 :
  let u := (Uncertain_new ([] : Heap float) 1%float 0.5%float).1 in
  let h := (Uncertain_new ([] : Heap float) 1%float 0.5%float).2 in
  let c := DivisionCpp.operator_div_double h u zero in
  (zero =? zero)%float = true ∧
  is_inf_or_nan (mean c) = true ∧
  (∀ j d, deps c !! j = Some d → is_inf_or_nan d = true) ∧
  mean c = infinity.
Proof.
  intros u h c.
  assert (Hk : (zero =? zero)%float = true) by reflexivity.
  split; [exact Hk|].
  pose proof (division_by_plain_zero_is_silent h u zero Hk c
                (or_intror (or_introl eq_refl))) as [Hm Hd].
  split; [exact Hm|]. split; [exact Hd|]. reflexivity.
Defined.
End Binary64MoreClaims.

(** ** The further properties at concrete values *)
Section RealMoreInstances.
Local Open Scope R_scope.

(** [x = Uncertain(2, 0.5)] and [y = Uncertain(4, 0.1)], constructed one
    after the other on an empty heap. *)
Let x2 : Uncertain R := (Uncertain_new ([] : Heap R) 2 0.5).1.
Let h1 : Heap R := (Uncertain_new ([] : Heap R) 2 0.5).2.
Let y4 : Uncertain R := (Uncertain_new h1 4 0.1).1.
Let h2 : Heap R := (Uncertain_new h1 4 0.1).2.

Lemma x2_std_derived : std_derived h2 x2.
Proof.
  destruct (built_inv Rstd_pow h2 x2) as [Hs _]; [|exact Hs].
  exact (built_alloc Rstd_pow _ _ {| iv_std := 0.1 |}
           (built_new Rstd_pow [] 2 0.5)).
Qed.

Lemma negation_is_an_involution_at_2 :
  std_derived h2 x2 ∧
  OperationsIpp.operator_neg h2 (OperationsIpp.operator_neg h2 x2) = x2.
Proof.
  split; [exact x2_std_derived|].
  exact (proj2 (proj2 (proj2
           (negation_is_an_involution h2 x2 x2_std_derived)))).
Defined.

Lemma division_by_a_number_is_scaling_at_2 :
  4 ≠ 0 ∧ std_derived h2 x2 ∧
  std (OperationsIpp.operator_div_double h2 x2 4) = std x2 / Rabs 4.
Proof.
  assert (Hk : 4 ≠ 0) by lra.
  split; [exact Hk|]. split; [exact x2_std_derived|].
  exact (proj2 (proj2 (proj2
           (division_by_a_number_is_scaling h2 x2 4 Hk x2_std_derived)))).
Defined.

Lemma number_divided_by_uncertain_at_4 :
  mean y4 ≠ 0 ∧
  mean (DivisionCpp.operator_double_div Rstd_pow h2 3 y4) = 3 / mean y4.
Proof.
  assert (Hy : mean y4 ≠ 0) by (change (mean y4) with 4; lra).
  split; [exact Hy|].
  exact (proj1 (number_divided_by_uncertain h2 3 y4 Hy)).
Defined.

Lemma self_quotient_is_exactly_one_at_2 :
  mean x2 ≠ 0 ∧
  mean (OperationsIpp.operator_div Rstd_pow h2 x2 x2) = 1 ∧
  std (OperationsIpp.operator_div Rstd_pow h2 x2 x2) = 0.
Proof.
  assert (Hx : mean x2 ≠ 0) by (change (mean x2) with 2; lra).
  split; [exact Hx|].
  pose proof (self_quotient_is_exactly_one h2 x2 0 0 Hx) as (Hm & Hs & _).
  split; [exact Hm|exact Hs].
Defined.

Lemma scaling_composes_at_2 :
  std_derived h2 x2 ∧
  UncertainHpp.operator_mul_num h2 (UncertainHpp.operator_mul_num h2 x2 3) 5
  = UncertainHpp.operator_mul_num h2 x2 (3 * 5).
Proof.
  split; [exact x2_std_derived|].
  exact (proj1 (scaling_composes h2 x2 3 5 x2_std_derived)).
Defined.

Lemma pow_composes_at_2 :
  0 < mean x2 ∧ std_derived h2 x2 ∧
  UncertainHpp.pow Rstd_pow h2 (UncertainHpp.pow Rstd_pow h2 x2 3) 0.5
  = UncertainHpp.pow Rstd_pow h2 x2 (3 * 0.5).
Proof.
  assert (Hx : 0 < mean x2) by (change (mean x2) with 2; lra).
  split; [exact Hx|]. split; [exact x2_std_derived|].
  exact (proj1 (pow_composes h2 x2 3 0.5 Hx x2_std_derived)).
Defined.

Lemma sum_then_difference_recovers_at_2 :
  std_derived h2 x2 ∧
  std (OperationsIpp.operator_sub h2 (OperationsIpp.operator_add h2 x2 y4) y4)
  = std x2.
Proof.
  split; [exact x2_std_derived|].
  exact (proj1 (proj2
           (sum_then_difference_recovers h2 x2 y4 x2_std_derived))).
Defined.

Lemma product_then_quotient_recovers_at_2 :
  mean y4 ≠ 0 ∧ std_derived h2 x2 ∧
  std (OperationsIpp.operator_div Rstd_pow h2
         (OperationsIpp.operator_mul h2 x2 y4) y4) = std x2.
Proof.
  assert (Hy : mean y4 ≠ 0) by (change (mean y4) with 4; lra).
  split; [exact Hy|]. split; [exact x2_std_derived|].
  exact (proj2 (proj1
           (product_then_quotient_recovers h2 x2 y4 Hy x2_std_derived))).
Defined.

Lemma self_assignment_of_product_at_2 :
  deps x2 !! 0%nat = Some 1 ∧ 1 ≠ 0 ∧ mean x2 ≠ 0 ∧ mean x2 ≠ 1 ∧
  OperationsIpp.operator_mul_assign h2 x2 same_object
  ≠ OperationsIpp.operator_mul h2 x2 x2.
Proof.
  assert (Hk : deps x2 !! 0%nat = Some 1) by apply lookup_singleton_eq.
  assert (Hd : 1 ≠ 0) by lra.
  assert (Hm0 : mean x2 ≠ 0) by (change (mean x2) with 2; lra).
  assert (Hm1 : mean x2 ≠ 1) by (change (mean x2) with 2; lra).
  split; [exact Hk|]. split; [exact Hd|]. split; [exact Hm0|].
  split; [exact Hm1|].
  exact (proj2 (proj2 (self_assignment_of_product h2 x2))
           0%nat 1 Hk Hd Hm0 Hm1).
Defined.
End RealMoreInstances.
